(** * Game of Life on a torus: the engine of [app.component.ts]

    A shallow embedding of the simulation engine of the Angular component
    [AppComponent]: the toroidal neighbour function [getNeighbours], the
    [Field] store, the edit handler [setStatusAction], the generation step
    [tick] / [tickAction], the reset [initAction] and the [scan] reducer
    that folds the merged event stream.

    Conventions of the embedding.
    - A JavaScript [number] that holds an index or a dimension is a [Z].
      The remainder operator [%] is [Z.rem] (the sign follows the dividend).
    - [Array<boolean>] is a [list bool]; an element is kept by its
      truthiness, which is all the program ever reads of it. A read outside
      the array gives [undefined], which is falsy.
    - [Set<number>] is a [gset Z] and [Map<number, Array<number>>] is a
      [gmap Z (list Z)]. The insertion order of a JavaScript Set is not kept:
      the engine only tests membership and rebuilds sets from lists.
    - A thrown exception is [None]: the [TypeError] of calling a method on
      [undefined] (the result of [Map.get] on a missing key, which the
      source reads through the non-null assertion [!]), and the
      [RangeError] of [Array(n)] for an invalid length. An exception ends
      the [scan]: the state a handler had reached when it threw is not
      kept. *)

From Stdlib Require Import ZArith Lia.
From stdpp Require Import base option list gmap sets fin_sets fin_maps numbers.
From stdpp Require Import strings.

Local Open Scope Z_scope.

(** ** Topology *)

(** [getNeighbours(index, height, width)], lines 305-323. *)
Definition getNeighbours (index height width : Z) : list Z :=
  let dimension := height * width in
  let topNeighbourOffset :=
    if index <? width then dimension - width else - width in
  let bottomNeighbourOffset :=
    if index >=? (height - 1) * width then - dimension + width else width in
  let leftNeighbourOffset :=
    if Z.rem index width =? 0 then width - 1 else -1 in
  let rightNeighbourOffset :=
    if Z.rem index width =? width - 1 then - width + 1 else 1 in
  [ index + topNeighbourOffset + leftNeighbourOffset;
    index + topNeighbourOffset;
    index + topNeighbourOffset + rightNeighbourOffset;
    index + leftNeighbourOffset;
    index + rightNeighbourOffset;
    index + bottomNeighbourOffset + leftNeighbourOffset;
    index + bottomNeighbourOffset;
    index + bottomNeighbourOffset + rightNeighbourOffset ].

(** ** The Field store *)

Record Field := mkField {
  status : list bool;
  aliveCells : gset Z;
  deadCellsWithAliveNeighbours : gset Z;
  neighbours : gmap Z (list Z);
}.

(** The seed of the [scan], lines 145-150. *)
Definition emptyField : Field :=
  {| status := [];
     aliveCells := ∅;
     deadCellsWithAliveNeighbours := ∅;
     neighbours := ∅ |}.

(** Truthiness of [array[index]]. *)
Definition array_get (a : list bool) (index : Z) : bool :=
  if index <? 0 then false else default false (a !! Z.to_nat index).

(** [array[index] = value]. Inside the array the element is replaced. Past
    the end JavaScript grows the array and leaves holes, which read as
    [undefined] and are kept here as [false]. A negative index names a plain
    property, not an element: the elements stay as they are. *)
Definition array_set (a : list bool) (index : Z) (value : bool) : list bool :=
  if index <? 0 then a
  else
    let i := Z.to_nat index in
    if (i <? length a)%nat then <[i := value]> a
    else a ++ replicate (i - length a)%nat false ++ [value].

(** The payload of an ['init'] action: what [initField$] maps a pair of
    dimensions to, lines 99-109. *)
Record InitPayload := mkInit {
  init_status : list bool;
  init_neighbours : gmap Z (list Z);
}.

(** [Array(n)] throws a RangeError unless [n] is an array length. *)
Definition valid_array_length (n : Z) : bool := (0 <=? n) && (n <? 2 ^ 32).

Definition initField (height width : Z) : option InitPayload :=
  if valid_array_length (height * width) then
    let status := replicate (Z.to_nat (height * width)) false in
    Some {| init_status := status;
            init_neighbours :=
              list_to_map
                (imap (λ index _,
                         (Z.of_nat index,
                          getNeighbours (Z.of_nat index) height width))
                      status) |}
  else None.

(** [initAction], lines 251-259: [{ ...field, ...initField }]. The payload
    has the keys [status] and [neighbours] only. *)
Definition initAction (payload : InitPayload) (field : Field) : Field :=
  {| status := init_status payload;
     aliveCells := aliveCells field;
     deadCellsWithAliveNeighbours := deadCellsWithAliveNeighbours field;
     neighbours := init_neighbours payload |}.

(** ** Edit handler *)

(** [list.some(n => aliveCells.has(n))]. *)
Definition some_alive (alive : gset Z) (l : list Z) : bool :=
  existsb (λ n, bool_decide (n ∈ alive)) l.

(** [setStatusAction], lines 211-249. *)
Definition setStatusAction (index : Z) (value : bool) (field : Field)
  : option Field :=
  let status' := array_set (status field) index value in
  if value then
    let alive := {[index]} ∪ aliveCells field in
    let frontier := deadCellsWithAliveNeighbours field ∖ {[index]} in
    ns ← neighbours field !! index;
    let added := filter (λ n, n ∉ alive) ns in
    Some {| status := status';
            aliveCells := alive;
            deadCellsWithAliveNeighbours := frontier ∪ list_to_set added;
            neighbours := neighbours field |}
  else
    let alive := aliveCells field ∖ {[index]} in
    ns ← neighbours field !! index;
    let frontier :=
      if some_alive alive ns
      then {[index]} ∪ deadCellsWithAliveNeighbours field
      else deadCellsWithAliveNeighbours field in
    lonely ← mapM (λ n, nn ← neighbours field !! n;
                        Some (n, negb (some_alive alive nn))) ns;
    let removed := (filter (λ p, p.2 = true) lonely).*1 in
    Some {| status := status';
            aliveCells := alive;
            deadCellsWithAliveNeighbours := frontier ∖ list_to_set removed;
            neighbours := neighbours field |}.

(** ** Generation step *)

(** The neighbour list the map holds for an index; empty where it holds
    none. *)
Definition neighbours_of (f : Field) (i : Z) : list Z :=
  default [] (neighbours f !! i).

(** [decideStatus], lines 269-279. *)
Definition decideStatus (field : Field) (st : bool) (index : Z) : option bool :=
  ns ← neighbours field !! index;
  let aliveNeighbours :=
    length (filter (λ n, array_get (status field) n = true) ns) in
  Some (if negb st then (aliveNeighbours =? 3)%nat
        else (2 <=? aliveNeighbours)%nat && (aliveNeighbours <=? 3)%nat).

(** Truthiness of an entry of the mapped candidate list: [null] and [0] are
    both falsy under [!!index]. *)
Definition truthy (entry : option Z) : bool :=
  match entry with
  | Some index => negb (index =? 0)
  | None => false
  end.

Record TickResult := mkTick {
  tick_status : list bool;
  tick_aliveCells : gset Z;
  tick_deadCellsWithAliveNeighbours : gset Z;
}.

(** [tick], lines 261-303. The lists of the new alive cells are read with
    [Map.get] and flattened, which does not throw; each of these cells is a
    candidate, whose list [decideStatus] has read before, so none of them is
    missing. *)
Definition tick (field : Field) : option TickResult :=
  let candidates :=
    elements (aliveCells field)
      ++ elements (deadCellsWithAliveNeighbours field) in
  decided ← mapM (λ index,
                    b ← decideStatus field
                          (array_get (status field) index) index;
                    Some (if b : bool then Some index else None))
                 candidates;
  let aliveCells : gset Z :=
    list_to_set (omap id (filter (λ e, truthy e = true) decided)) in
  let lists := neighbours_of field <$> elements aliveCells in
  let deadCellsWithAliveNeighbours : gset Z :=
    list_to_set (filter (λ n, n ∉ aliveCells) (concat lists)) in
  Some {| tick_status :=
            imap (λ index _, bool_decide (Z.of_nat index ∈ aliveCells))
                 (status field);
          tick_aliveCells := aliveCells;
          tick_deadCellsWithAliveNeighbours := deadCellsWithAliveNeighbours |}.

(** [tickAction], lines 207-209: [{ ...field, ...this.tick(field) }]. *)
Definition tickAction (field : Field) : option Field :=
  r ← tick field;
  Some {| status := tick_status r;
          aliveCells := tick_aliveCells r;
          deadCellsWithAliveNeighbours := tick_deadCellsWithAliveNeighbours r;
          neighbours := neighbours field |}.

(** ** Reducer *)

(** The three event kinds merged into [field$], lines 122-128. An
    [Initialize] carries the dimensions; its payload is [initField]. *)
Inductive Event :=
  | Initialize (height width : Z)
  | SetCell (index : Z) (value : bool)
  | Tick.

(** The accumulator function of the [scan], lines 130-144. *)
Definition reducer (field : Field) (ev : Event) : option Field :=
  match ev with
  | Initialize height width =>
      payload ← initField height width;
      Some (initAction payload field)
  | SetCell index value => setStatusAction index value field
  | Tick => tickAction field
  end.

(** The fold of a list of events, from a given state. *)
Fixpoint run (field : Field) (events : list Event) : option Field :=
  match events with
  | [] => Some field
  | ev :: rest => field' ← reducer field ev; run field' rest
  end.

(** ** The spec's reading of the topology and of a generation *)

(** The flat index of the cell at a row and a column. *)
Definition cell (width row col : Z) : Z := row * width + col.

Definition up (height row : Z) : Z :=
  if row =? 0 then height - 1 else row - 1.
Definition down (height row : Z) : Z :=
  if row =? height - 1 then 0 else row + 1.
Definition left (width col : Z) : Z :=
  if col =? 0 then width - 1 else col - 1.
Definition right (width col : Z) : Z :=
  if col =? width - 1 then 0 else col + 1.

(** The eight toroidal directions in row-major order, as the design
    document words them: top-left, top, top-right, left, right,
    bottom-left, bottom, bottom-right of [(index / width, index % width)]. *)
Definition neighborsOf (index height width : Z) : list Z :=
  let row := index / width in
  let col := index mod width in
  [ cell width (up height row) (left width col);
    cell width (up height row) col;
    cell width (up height row) (right width col);
    cell width row (left width col);
    cell width row (right width col);
    cell width (down height row) (left width col);
    cell width (down height row) col;
    cell width (down height row) (right width col) ].

(** The number of alive neighbours of a cell, counted over its list. *)
Definition alive_neighbours (f : Field) (i : Z) : nat :=
  length (filter (λ n, array_get (status f) n = true) (neighbours_of f i)).

(** B3/S23: a dead cell with exactly three alive neighbours is born, an
    alive cell with two or three survives. *)
Definition rule_B3S23 (alive : bool) (a : nat) : bool :=
  if alive then (a =? 2)%nat || (a =? 3)%nat else (a =? 3)%nat.

(** The naive generation: the rule evaluated at every cell of the grid,
    over the same neighbour map. *)
Definition naive_step (f : Field) : list bool :=
  imap (λ i st, rule_B3S23 st (alive_neighbours f (Z.of_nat i))) (status f).

(** *** The invariants of the Field *)

Definition alive_inv (f : Field) : Prop :=
  ∀ i, i ∈ aliveCells f ↔ array_get (status f) i = true.

Definition has_alive_neighbour (f : Field) (i : Z) : Prop :=
  ∃ n, n ∈ neighbours_of f i ∧ array_get (status f) n = true.

Definition frontier_inv (f : Field) : Prop :=
  ∀ i, i ∈ deadCellsWithAliveNeighbours f
       ↔ array_get (status f) i = false ∧ has_alive_neighbour f i.

(** What the engine relies on of the neighbour map: it has a list for the
    indices of the status array and for no other, the lists stay inside the
    array, and being a neighbour is symmetric. *)
Record grid_wf (f : Field) : Prop := mk_grid_wf {
  wf_dom : ∀ i, is_Some (neighbours f !! i)
                ↔ 0 <= i < Z.of_nat (length (status f));
  wf_closed : ∀ i n, n ∈ neighbours_of f i → is_Some (neighbours f !! n);
  wf_sym : ∀ i n, n ∈ neighbours_of f i → i ∈ neighbours_of f n;
}.

Record valid (f : Field) : Prop := mk_valid {
  valid_grid : grid_wf f;
  valid_alive : alive_inv f;
  valid_frontier : frontier_inv f;
}.

(** *** A checker for the invariants *)

Definition indices (f : Field) : list Z :=
  Z.of_nat <$> seq 0 (length (status f)).

Definition grid_wfb (f : Field) : bool :=
  bool_decide (dom (neighbours f) = list_to_set (indices f))
  && forallb (λ i, forallb (λ n, bool_decide (n ∈ dom (neighbours f))
                                 && bool_decide (i ∈ neighbours_of f n))
                           (neighbours_of f i))
             (indices f).

Definition alive_invb (f : Field) : bool :=
  bool_decide (aliveCells f =
               list_to_set (filter (λ i, array_get (status f) i = true)
                                   (indices f))).

Definition frontier_invb (f : Field) : bool :=
  bool_decide (deadCellsWithAliveNeighbours f =
               list_to_set
                 (filter (λ i, array_get (status f) i = false
                               ∧ existsb (array_get (status f))
                                         (neighbours_of f i) = true)
                         (indices f))).

Definition validb (f : Field) : bool :=
  grid_wfb f && alive_invb f && frontier_invb f.

(** The events of a session on a grid of fixed dimensions: edits of cells
    of the grid and ticks. *)
Definition on_grid (height width : Z) (ev : Event) : Prop :=
  match ev with
  | Initialize _ _ => False
  | SetCell index _ => 0 <= index < height * width
  | Tick => True
  end.

(** *** Scenarios *)

(** The set of the cells at a list of (row, column) positions. *)
Definition of_coords (width : Z) (l : list (Z * Z)) : gset Z :=
  list_to_set ((λ p, cell width p.1 p.2) <$> l).

(** A cell moved by [(dr, dc)] on the torus. *)
Definition shift (height width dr dc index : Z) : Z :=
  cell width ((index / width + dr) mod height)
             ((index mod width + dc) mod width).

Definition glider_coords : list (Z * Z) :=
  [(1, 2); (2, 3); (3, 1); (3, 2); (3, 3)].

(** A 5 x 5 Field with the glider drawn cell by cell. *)
Definition glider_events : list Event :=
  Initialize 5 5 :: ((λ p, SetCell (cell 5 p.1 p.2) true) <$> glider_coords).

(** A 10 x 10 Field with three cells alive around the corner cell 0. *)
Definition corner_events : list Event :=
  [Initialize 10 10; SetCell 1 true; SetCell 10 true; SetCell 11 true].

Definition glider_field : Field :=
  default emptyField (run emptyField glider_events).

Definition corner_field : Field :=
  default emptyField (run emptyField corner_events).

(** A 10 x 10 Field with one cell alive, and the same Field resized to
    10 x 11. *)
Definition edited_field : Field :=
  default emptyField (run emptyField [Initialize 10 10; SetCell 5 true]).

Definition resized_field : Field :=
  default emptyField (reducer edited_field (Initialize 10 11)).

(** A 20 x 20 Field with its last cell alive, resized to 10 x 10. *)
Definition shrink_events : list Event :=
  [Initialize 20 20; SetCell 399 true; Initialize 10 10].

(** The corner Field one generation later. *)
Definition corner_next : Field :=
  default emptyField (tickAction corner_field).

(** ** The stream of Initialize events *)

(** The value of the settings form, lines 53-76. *)
Record Settings := mkSettings {
  settings_height : Z;
  settings_width : Z;
  settings_cellSize : Z;
  settings_interval : Z;
  settings_cellAliveColor : string;
  settings_cellDeadColor : string;
}.

(** RxJS [distinctUntilChanged(comparator)] on a finite stream, after the
    value [key] has passed: a value passes when the comparator denies that
    it is the same as the last value that passed. *)
Fixpoint distinctUntilChanged_from {A} (comparator : A → A → bool)
    (key : A) (stream : list A) : list A :=
  match stream with
  | [] => []
  | x :: rest =>
      if comparator key x
      then distinctUntilChanged_from comparator key rest
      else x :: distinctUntilChanged_from comparator x rest
  end.

(** The first value of the stream always passes. *)
Definition distinctUntilChanged {A} (comparator : A → A → bool)
    (stream : list A) : list A :=
  match stream with
  | [] => []
  | x :: rest => x :: distinctUntilChanged_from comparator x rest
  end.

(** The comparator of [initField$], lines 96-98. *)
Definition same_dimensions (old n : Settings) : bool :=
  (settings_height old =? settings_height n)
  && (settings_width old =? settings_width n).

(** [initField$] together with its tag, lines 95-110 and 123: the settings
    stream, cut down to the changes of the dimensions, as ['init']
    events. *)
Definition initField_stream (settings : list Settings) : list Event :=
  (λ s, Initialize (settings_height s) (settings_width s))
    <$> distinctUntilChanged same_dimensions settings.

(** The settings the form starts with, and the same with another cell size
    and interval. *)
Definition default_settings : Settings :=
  {| settings_height := 20; settings_width := 20; settings_cellSize := 20;
     settings_interval := 500; settings_cellAliveColor := "500";
     settings_cellDeadColor := "500" |}.

Definition restyled_settings : Settings :=
  {| settings_height := 20; settings_width := 20; settings_cellSize := 8;
     settings_interval := 100; settings_cellAliveColor := "black";
     settings_cellDeadColor := "white" |}.


(** A 20 x 20 Field with its last cell alive, and the same Field resized
    to 10 x 10. *)
Definition big_field : Field :=
  default emptyField (run emptyField [Initialize 20 20; SetCell 399 true]).

Definition shrunk_field : Field :=
  default emptyField (reducer big_field (Initialize 10 10)).

(** The resized Field one generation later. *)
Definition resized_next : Field :=
  default emptyField (reducer resized_field Tick).

(** A session with two resizes. *)
Definition long_session : list Event :=
  [Initialize 10 10; SetCell 5 true; Tick; Initialize 10 11; SetCell 7 true;
   Initialize 4 4; SetCell 3 true].

Definition long_session_field : Field :=
  default emptyField (run emptyField long_session).

(** The glider Field with its five cells set dead again. *)
Definition cleared_field : Field :=
  default emptyField
    (run glider_field
       ((λ p, SetCell (cell 5 p.1 p.2) false) <$> glider_coords)).

(** ** Topology: proofs *)

Section Topology.
Variables height width : Z.
Hypothesis height_pos : 1 <= height.
Hypothesis width_pos : 1 <= width.

Lemma cell_rem row col :
  0 <= row -> 0 <= col < width -> Z.rem (cell width row col) width = col.
Proof.
  intros Hr Hc. unfold cell.
  rewrite Z.rem_mod_nonneg by nia.
  rewrite Z.add_comm, Z.mod_add by lia.
  apply Z.mod_small; lia.
Qed.

Lemma cell_div row col :
  0 <= col < width -> cell width row col / width = row.
Proof.
  intros Hc. unfold cell.
  rewrite Z.add_comm, Z.div_add by lia.
  rewrite Z.div_small by lia. lia.
Qed.

Lemma cell_mod row col :
  0 <= col < width -> cell width row col mod width = col.
Proof.
  intros Hc. unfold cell.
  rewrite Z.add_comm, Z.mod_add by lia.
  apply Z.mod_small; lia.
Qed.

Lemma cell_inj r1 c1 r2 c2 :
  0 <= c1 < width -> 0 <= c2 < width ->
  cell width r1 c1 = cell width r2 c2 -> r1 = r2 /\ c1 = c2.
Proof.
  intros H1 H2 Heq.
  assert (r1 = r2) as ->
    by (rewrite <- (cell_div r1 c1 H1), Heq; by apply cell_div).
  unfold cell in Heq. split; lia.
Qed.

Lemma cell_bounds row col :
  0 <= row < height -> 0 <= col < width ->
  0 <= cell width row col < height * width.
Proof. unfold cell. intros ? ?. nia. Qed.

(** Every index of the grid is the cell of its row and column. *)
Lemma index_cell index :
  0 <= index < height * width ->
  index = cell width (index / width) (index mod width)
  /\ 0 <= index / width < height
  /\ 0 <= index mod width < width.
Proof.
  intros Hi.
  pose proof (Z.div_mod index width ltac:(lia)) as Hdm.
  pose proof (Z.mod_pos_bound index width ltac:(lia)) as Hm.
  assert (0 <= index / width) by (apply Z.div_pos; lia).
  assert (index / width < height)
    by (apply Z.div_lt_upper_bound; lia).
  unfold cell. lia.
Qed.

Lemma up_bounds row : 0 <= row < height -> 0 <= up height row < height.
Proof. unfold up. intros ?. destruct (Z.eqb_spec row 0); lia. Qed.
Lemma down_bounds row : 0 <= row < height -> 0 <= down height row < height.
Proof. unfold down. intros ?. destruct (Z.eqb_spec row (height - 1)); lia. Qed.
Lemma left_bounds col : 0 <= col < width -> 0 <= left width col < width.
Proof. unfold left. intros ?. destruct (Z.eqb_spec col 0); lia. Qed.
Lemma right_bounds col : 0 <= col < width -> 0 <= right width col < width.
Proof. unfold right. intros ?. destruct (Z.eqb_spec col (width - 1)); lia. Qed.

(** The offsets of the source, read on a row and a column. *)
Lemma getNeighbours_cell row col :
  0 <= row < height -> 0 <= col < width ->
  getNeighbours (cell width row col) height width =
    [ cell width (up height row) (left width col);
      cell width (up height row) col;
      cell width (up height row) (right width col);
      cell width row (left width col);
      cell width row (right width col);
      cell width (down height row) (left width col);
      cell width (down height row) col;
      cell width (down height row) (right width col) ].
Proof.
  intros Hr Hc. unfold getNeighbours.
  rewrite cell_rem by lia.
  unfold up, down, left, right, cell.
  destruct (Z.ltb_spec (row * width + col) width);
    destruct (Z.eqb_spec row 0); try nia;
    destruct (Z.geb_spec (row * width + col) ((height - 1) * width));
    destruct (Z.eqb_spec row (height - 1)); try nia;
    destruct (Z.eqb_spec col 0);
    destruct (Z.eqb_spec col (width - 1));
    repeat (f_equal; try nia).
Qed.

Lemma getNeighbours_neighborsOf index :
  0 <= index < height * width ->
  getNeighbours index height width = neighborsOf index height width.
Proof.
  intros Hi. destruct (index_cell index Hi) as (Heq & Hr & Hc).
  rewrite Heq at 1. rewrite getNeighbours_cell by done. reflexivity.
Qed.

Lemma getNeighbours_length index :
  length (getNeighbours index height width) = 8%nat.
Proof. reflexivity. Qed.

Lemma getNeighbours_in_bounds index :
  0 <= index < height * width ->
  Forall (λ n, 0 <= n < height * width) (getNeighbours index height width).
Proof.
  intros Hi. destruct (index_cell index Hi) as (Heq & Hr & Hc).
  rewrite Heq, getNeighbours_cell by done.
  pose proof (up_bounds _ Hr). pose proof (down_bounds _ Hr).
  pose proof (left_bounds _ Hc). pose proof (right_bounds _ Hc).
  repeat apply Forall_cons_2; try apply Forall_nil_2;
    by apply cell_bounds.
Qed.

Lemma up_down row : 0 <= row < height -> up height (down height row) = row.
Proof.
  unfold up, down. intros ?.
  destruct (Z.eqb_spec row (height - 1)); simpl.
  - lia.
  - destruct (Z.eqb_spec (row + 1) 0); lia.
Qed.

Lemma down_up row : 0 <= row < height -> down height (up height row) = row.
Proof.
  unfold up, down. intros ?.
  destruct (Z.eqb_spec row 0).
  - rewrite Z.eqb_refl. lia.
  - destruct (Z.eqb_spec (row - 1) (height - 1)); lia.
Qed.

Lemma left_right col : 0 <= col < width -> left width (right width col) = col.
Proof.
  unfold left, right. intros ?.
  destruct (Z.eqb_spec col (width - 1)); simpl.
  - lia.
  - destruct (Z.eqb_spec (col + 1) 0); lia.
Qed.

Lemma right_left col : 0 <= col < width -> right width (left width col) = col.
Proof.
  unfold left, right. intros ?.
  destruct (Z.eqb_spec col 0).
  - rewrite Z.eqb_refl. lia.
  - destruct (Z.eqb_spec (col - 1) (width - 1)); lia.
Qed.

(** On a grid of at least three rows and columns the eight cells differ. *)
Lemma getNeighbours_NoDup index :
  3 <= height -> 3 <= width -> 0 <= index < height * width ->
  NoDup (getNeighbours index height width).
Proof.
  intros Hh Hw Hi. destruct (index_cell index Hi) as (Heq & Hr & Hc).
  rewrite Heq, getNeighbours_cell by done.
  pose proof (up_bounds _ Hr). pose proof (down_bounds _ Hr).
  pose proof (left_bounds _ Hc). pose proof (right_bounds _ Hc).
  assert (up height (index / width) ≠ index / width
          /\ down height (index / width) ≠ index / width
          /\ up height (index / width) ≠ down height (index / width))
    as (? & ? & ?).
  { unfold up, down.
    destruct (Z.eqb_spec (index / width) 0);
      destruct (Z.eqb_spec (index / width) (height - 1)); lia. }
  assert (left width (index mod width) ≠ index mod width
          /\ right width (index mod width) ≠ index mod width
          /\ left width (index mod width) ≠ right width (index mod width))
    as (? & ? & ?).
  { unfold left, right.
    destruct (Z.eqb_spec (index mod width) 0);
      destruct (Z.eqb_spec (index mod width) (width - 1)); lia. }
  repeat apply NoDup_cons_2; try apply NoDup_nil_2;
    rewrite ?not_elem_of_cons; repeat split; try apply not_elem_of_nil;
    intros Hcell; apply cell_inj in Hcell; lia.
Qed.

(** On a grid of one or two rows, above and below are the same cell; on
    one or two columns, left and right are. *)
Lemma getNeighbours_dup index :
  0 <= index < height * width ->
  NoDup (getNeighbours index height width) -> 3 <= height /\ 3 <= width.
Proof.
  intros Hi. destruct (index_cell index Hi) as (Heq & Hr & Hc).
  rewrite Heq, getNeighbours_cell by done.
  rewrite NoDup_alt. intros Hnd. split.
  - destruct (decide (3 <= height)) as [|Hsmall]; [done|exfalso].
    assert (up height (index / width) = down height (index / width)) as Hud.
    { unfold up, down.
      destruct (Z.eqb_spec (index / width) 0);
        destruct (Z.eqb_spec (index / width) (height - 1)); lia. }
    specialize (Hnd 1%nat 6%nat
                  (cell width (up height (index / width)) (index mod width))).
    simpl in Hnd. rewrite Hud in Hnd.
    by specialize (Hnd eq_refl eq_refl).
  - destruct (decide (3 <= width)) as [|Hsmall]; [done|exfalso].
    assert (left width (index mod width) = right width (index mod width))
      as Hlr.
    { unfold left, right.
      destruct (Z.eqb_spec (index mod width) 0);
        destruct (Z.eqb_spec (index mod width) (width - 1)); lia. }
    specialize (Hnd 3%nat 4%nat
                  (cell width (index / width) (left width (index mod width)))).
    simpl in Hnd. rewrite Hlr in Hnd.
    by specialize (Hnd eq_refl eq_refl).
Qed.

(** The neighbour relation of the torus is symmetric. *)
Lemma getNeighbours_sym i j :
  0 <= i < height * width -> 0 <= j < height * width ->
  j ∈ getNeighbours i height width -> i ∈ getNeighbours j height width.
Proof.
  intros Hi Hj. destruct (index_cell i Hi) as (Heq & Hr & Hc).
  set (r := i / width) in *. set (c := i mod width) in *.
  rewrite Heq, getNeighbours_cell by done.
  pose proof (up_bounds _ Hr). pose proof (down_bounds _ Hr).
  pose proof (left_bounds _ Hc). pose proof (right_bounds _ Hc).
  rewrite !elem_of_cons, elem_of_nil.
  intros [->|[->|[->|[->|[->|[->|[->|[->|[]]]]]]]]];
    rewrite getNeighbours_cell by done;
    rewrite ?up_down, ?down_up, ?left_right, ?right_left by done;
    rewrite !elem_of_cons; auto 10.
Qed.
End Topology.

(** ** The reducer on the empty Field *)

Lemma tick_emptyField : reducer emptyField Tick = Some emptyField.
Proof. reflexivity. Qed.

Lemma setStatusAction_emptyField index value :
  reducer emptyField (SetCell index value) = None.
Proof. by destruct value. Qed.

(** ** Arrays *)

Lemma array_get_true a i :
  array_get a i = true ↔ 0 <= i ∧ a !! Z.to_nat i = Some true.
Proof.
  unfold array_get. destruct (Z.ltb_spec i 0).
  - split; [done | lia].
  - destruct (a !! Z.to_nat i) as [[]|]; simpl; intuition congruence.
Qed.

Lemma array_get_in_range a i :
  array_get a i = true → 0 <= i < Z.of_nat (length a).
Proof.
  rewrite array_get_true. intros [? Hl].
  apply lookup_lt_Some in Hl. lia.
Qed.

Lemma array_get_of_nat a (i : nat) :
  array_get a (Z.of_nat i) = default false (a !! i).
Proof.
  unfold array_get. destruct (Z.ltb_spec (Z.of_nat i) 0); [lia|].
  by rewrite Nat2Z.id.
Qed.

(** Writing to a cell the value it reads as leaves the array as it is. *)
Lemma array_set_same a i :
  0 <= i < Z.of_nat (length a) → array_set a i (array_get a i) = a.
Proof.
  intros Hi. unfold array_set, array_get.
  destruct (Z.ltb_spec i 0); [lia|].
  destruct (Nat.ltb_spec (Z.to_nat i) (length a)); [|lia].
  destruct (lookup_lt_is_Some_2 a (Z.to_nat i)) as [b Hb]; [done|].
  rewrite Hb. by apply list_insert_id.
Qed.

Lemma array_set_length a i v :
  0 <= i < Z.of_nat (length a) → length (array_set a i v) = length a.
Proof.
  intros Hi. unfold array_set.
  destruct (Z.ltb_spec i 0); [lia|].
  destruct (Nat.ltb_spec (Z.to_nat i) (length a)); [|lia].
  apply length_insert.
Qed.

Lemma array_get_set a i j v :
  0 <= i < Z.of_nat (length a) →
  array_get (array_set a i v) j = if decide (j = i) then v else array_get a j.
Proof.
  intros Hi. unfold array_set, array_get.
  destruct (Z.ltb_spec i 0); [lia|].
  destruct (Nat.ltb_spec (Z.to_nat i) (length a)); [|lia].
  destruct (decide (j = i)) as [->|Hne].
  - destruct (Z.ltb_spec i 0); [lia|].
    by rewrite list_lookup_insert_eq.
  - destruct (Z.ltb_spec j 0); [done|].
    rewrite list_lookup_insert_ne by lia. done.
Qed.

(** ** The rule *)

Lemma decideStatus_rule f st i b :
  decideStatus f st i = Some b → b = rule_B3S23 st (alive_neighbours f i).
Proof.
  unfold decideStatus, alive_neighbours, neighbours_of, rule_B3S23.
  destruct (neighbours f !! i) as [ns|]; simpl; [|done].
  intros [= <-]. destruct st; [|done]. cbn [negb].
  generalize (length (filter (λ n, array_get (status f) n = true) ns)).
  intros a. do 4 (destruct a as [|a]; [done|]). done.
Qed.

Lemma decideStatus_is_Some f st i :
  is_Some (decideStatus f st i) ↔ is_Some (neighbours f !! i).
Proof.
  unfold decideStatus.
  destruct (neighbours f !! i); simpl; split; intros [? ?]; by eauto.
Qed.

Lemma existsb_array_get f l :
  existsb (array_get (status f)) l = true
  ↔ ∃ n, n ∈ l ∧ array_get (status f) n = true.
Proof.
  rewrite existsb_exists. setoid_rewrite list_elem_of_In. done.
Qed.

Lemma some_alive_true alive l :
  some_alive alive l = true ↔ ∃ n, n ∈ l ∧ n ∈ alive.
Proof.
  unfold some_alive. rewrite existsb_exists.
  setoid_rewrite list_elem_of_In. setoid_rewrite bool_decide_eq_true. done.
Qed.

Lemma elem_of_concat (x : Z) (ls : list (list Z)) :
  x ∈ concat ls ↔ ∃ l, l ∈ ls ∧ x ∈ l.
Proof.
  rewrite list_elem_of_In, in_concat.
  setoid_rewrite list_elem_of_In. naive_solver.
Qed.

(** ** The generation step *)

(** The mapped candidate list holds [Some i] exactly for the candidates
    that the rule keeps alive. *)
Lemma decided_elem f (candidates : list Z) decided i :
  mapM (λ index,
          b ← decideStatus f (array_get (status f) index) index;
          Some (if b : bool then Some index else None)) candidates
  = Some decided →
  Some i ∈ decided
  ↔ i ∈ candidates
    ∧ rule_B3S23 (array_get (status f) i) (alive_neighbours f i) = true.
Proof.
  intros Hdec%mapM_Some_1. split.
  - intros [k Hk]%list_elem_of_lookup.
    destruct (Forall2_lookup_r _ _ _ _ _ Hdec Hk) as (c & Hc & Hrel).
    destruct (decideStatus f _ c) as [b|] eqn:Hb; [|done].
    simpl in Hrel. destruct b; [|done]. injection Hrel as ->.
    apply decideStatus_rule in Hb.
    by apply list_elem_of_lookup_2 in Hc.
  - intros [[k Hk]%list_elem_of_lookup Hrule].
    destruct (Forall2_lookup_l _ _ _ _ _ Hdec Hk) as (e & He & Hrel).
    destruct (decideStatus f _ i) as [b|] eqn:Hb; [|done].
    apply decideStatus_rule in Hb. rewrite Hrule in Hb. subst b.
    simpl in Hrel. injection Hrel as <-.
    by eapply list_elem_of_lookup_2.
Qed.

Lemma elem_of_truthy (decided : list (option Z)) i :
  i ∈ omap id (filter (λ e, truthy e = true) decided)
  ↔ i ≠ 0 ∧ Some i ∈ decided.
Proof.
  rewrite list_elem_of_omap. setoid_rewrite list_elem_of_filter. split.
  - intros (e & [Htr He] & Hid). simpl in Hid. subst e.
    simpl in Htr. by destruct (Z.eqb_spec i 0).
  - intros [Hne Hi]. exists (Some i). split; [|done]. split; [|done].
    simpl. by destruct (Z.eqb_spec i 0).
Qed.

(** The step returns as soon as the map has a list for every candidate. *)
Lemma tick_is_Some f :
  (∀ i, i ∈ aliveCells f ∨ i ∈ deadCellsWithAliveNeighbours f →
        is_Some (neighbours f !! i)) →
  is_Some (tick f).
Proof.
  intros Hcand. unfold tick.
  destruct (mapM _ _) as [decided|] eqn:Hdec; [by eauto|].
  exfalso. apply mapM_None_1, list.Exists_exists in Hdec as (i & Hi & Hnone).
  rewrite elem_of_app, !elem_of_elements in Hi.
  apply Hcand, (decideStatus_is_Some f (array_get (status f) i)) in Hi
    as [b Hb].
  by rewrite Hb in Hnone.
Qed.

(** It throws as soon as the map lacks the list of a candidate. *)
Lemma tick_None f i :
  i ∈ aliveCells f ∨ i ∈ deadCellsWithAliveNeighbours f →
  neighbours f !! i = None →
  tick f = None.
Proof.
  intros Hi Hnone. unfold tick.
  rewrite (proj2 (mapM_None _ _)); [done|].
  apply list.Exists_exists. exists i. split.
  - by rewrite elem_of_app, !elem_of_elements.
  - unfold decideStatus. by rewrite Hnone.
Qed.

Section Tick.
Variable f : Field.
Variable r : TickResult.
Hypothesis Htick : tick f = Some r.

(** A cell is alive after the step exactly when it was a candidate,
    the rule keeps it alive, and it is not the cell 0. *)
Lemma tick_aliveCells_spec i :
  i ∈ tick_aliveCells r
  ↔ i ≠ 0
    ∧ (i ∈ aliveCells f ∨ i ∈ deadCellsWithAliveNeighbours f)
    ∧ rule_B3S23 (array_get (status f) i) (alive_neighbours f i) = true.
Proof.
  unfold tick in Htick.
  destruct (mapM _ _) as [decided|] eqn:Hdec in Htick; [|done].
  injection Htick as <-. simpl.
  rewrite elem_of_list_to_set, elem_of_truthy, (decided_elem _ _ _ _ Hdec).
  by rewrite elem_of_app, !elem_of_elements.
Qed.

Lemma tick_status_spec :
  tick_status r =
    imap (λ index _, bool_decide (Z.of_nat index ∈ tick_aliveCells r))
         (status f).
Proof.
  unfold tick in Htick.
  destruct (mapM _ _) as [decided|] in Htick; [|done].
  by injection Htick as <-.
Qed.

(** The new frontier: the neighbours of the new alive cells that are not
    alive themselves. *)
Lemma tick_frontier_spec n :
  n ∈ tick_deadCellsWithAliveNeighbours r
  ↔ (n ∉ tick_aliveCells r)
    ∧ (∃ i, i ∈ tick_aliveCells r ∧ n ∈ neighbours_of f i).
Proof.
  unfold tick in Htick.
  destruct (mapM _ _) as [decided|] eqn:Hdec in Htick; [|done].
  injection Htick as <-. simpl.
  rewrite elem_of_list_to_set.
  rewrite list_elem_of_filter, elem_of_concat.
  setoid_rewrite list_elem_of_fmap. setoid_rewrite elem_of_elements.
  split.
  - intros (Hna & l & (i & -> & Hi) & Hn). by eauto.
  - intros (Hna & i & Hi & Hn). by eauto 6.
Qed.

Lemma tick_zero_dead : 0 ∉ tick_aliveCells r.
Proof. rewrite tick_aliveCells_spec. by intros [? _]. Qed.
End Tick.

Lemma tickAction_Some f f' :
  tickAction f = Some f' →
  ∃ r, tick f = Some r
       ∧ f' = {| status := tick_status r;
                 aliveCells := tick_aliveCells r;
                 deadCellsWithAliveNeighbours :=
                   tick_deadCellsWithAliveNeighbours r;
                 neighbours := neighbours f |}.
Proof.
  unfold tickAction. destruct (tick f) as [r|]; simpl; [|done].
  intros [= <-]. by exists r.
Qed.

(** ** The checker is sound *)

Lemma elem_of_indices f i :
  i ∈ indices f ↔ 0 <= i < Z.of_nat (length (status f)).
Proof.
  unfold indices. rewrite list_elem_of_fmap. split.
  - intros (k & -> & Hk). apply elem_of_seq in Hk. lia.
  - intros Hi. exists (Z.to_nat i). rewrite elem_of_seq. lia.
Qed.

Lemma neighbours_of_elem f i n :
  n ∈ neighbours_of f i → is_Some (neighbours f !! i).
Proof.
  unfold neighbours_of. destruct (neighbours f !! i); simpl; [by eauto|].
  by intros ?%elem_of_nil.
Qed.

Lemma grid_wfb_sound f : grid_wfb f = true → grid_wf f.
Proof.
  unfold grid_wfb. rewrite andb_true_iff, bool_decide_eq_true, forallb_forall.
  intros [Hdom Hall].
  assert (∀ i, is_Some (neighbours f !! i)
               ↔ 0 <= i < Z.of_nat (length (status f))) as Hd.
  { intros i. by rewrite <- elem_of_dom, Hdom, elem_of_list_to_set,
      elem_of_indices. }
  assert (∀ i n, n ∈ neighbours_of f i →
                 n ∈ dom (neighbours f) ∧ i ∈ neighbours_of f n) as Hn.
  { intros i n Hin.
    pose proof (neighbours_of_elem _ _ _ Hin) as Hi.
    apply Hd, elem_of_indices, list_elem_of_In, Hall in Hi.
    rewrite forallb_forall in Hi.
    apply list_elem_of_In, Hi in Hin.
    by rewrite andb_true_iff, !bool_decide_eq_true in Hin. }
  split; [done|..]; intros i n Hin; destruct (Hn i n Hin) as [Hdn Hs];
    [by apply elem_of_dom | done].
Qed.

Lemma alive_invb_sound f : alive_invb f = true → alive_inv f.
Proof.
  unfold alive_invb. rewrite bool_decide_eq_true. intros Heq i.
  rewrite Heq, elem_of_list_to_set, list_elem_of_filter, elem_of_indices.
  split; [by intros [? _]|]. intros Hi. split; [done|].
  by apply array_get_in_range.
Qed.

Lemma frontier_invb_sound f :
  grid_wf f → frontier_invb f = true → frontier_inv f.
Proof.
  unfold frontier_invb. rewrite bool_decide_eq_true. intros Hg Heq i.
  rewrite Heq, elem_of_list_to_set, list_elem_of_filter, elem_of_indices,
    existsb_array_get.
  unfold has_alive_neighbour. split; [by intros [? _]|].
  intros [Hd (n & Hn & Ha)]. split; [by eauto|].
  by eapply wf_dom, neighbours_of_elem.
Qed.

Lemma validb_sound f : validb f = true → valid f.
Proof.
  unfold validb. rewrite !andb_true_iff. intros [[Hg Ha] Hf].
  apply grid_wfb_sound in Hg.
  split; [done | by apply alive_invb_sound | by apply frontier_invb_sound].
Qed.

(** ** The edit handler *)

Lemma mapM_lonely f alive ns :
  (∀ n, n ∈ ns → is_Some (neighbours f !! n)) →
  mapM (λ n, nn ← neighbours f !! n; Some (n, negb (some_alive alive nn))) ns
  = Some ((λ n, (n, negb (some_alive alive (neighbours_of f n)))) <$> ns).
Proof.
  intros Hns. apply mapM_Some_2, Forall2_fmap_r, Forall_Forall2_diag.
  apply list.Forall_forall. intros n Hn.
  unfold neighbours_of, compose. destruct (Hns n Hn) as [nn Hnn].
  by rewrite Hnn.
Qed.

Lemma elem_of_removed (l : list Z) (p : Z → bool) n :
  n ∈ (filter (λ q : Z * bool, q.2 = true) ((λ n, (n, p n)) <$> l)).*1
  ↔ n ∈ l ∧ p n = true.
Proof.
  rewrite list_elem_of_fmap. setoid_rewrite list_elem_of_filter.
  setoid_rewrite list_elem_of_fmap. split.
  - intros ([m b] & -> & Hb & k & [= -> ->] & Hk). done.
  - intros [Hn Hp]. exists (n, p n). eauto.
Qed.

Lemma union_singleton_absorb (X : gset Z) i : i ∈ X → {[i]} ∪ X = X.
Proof.
  intros Hi. apply set_eq. intros n.
  rewrite elem_of_union, elem_of_singleton. split; [|by right].
  by intros [->|?].
Qed.

Section Edit.
Variable f : Field.
Hypothesis Hvalid : valid f.

Let Hg := valid_grid f Hvalid.
Let Ha := valid_alive f Hvalid.
Let Hf := valid_frontier f Hvalid.

Lemma alive_neighbour_iff l :
  some_alive (aliveCells f) l = true
  ↔ ∃ n, n ∈ l ∧ array_get (status f) n = true.
Proof. rewrite some_alive_true. by setoid_rewrite (Ha _). Qed.

(** Setting a cell to the value it has changes nothing. *)
Lemma setStatusAction_same i :
  0 <= i < Z.of_nat (length (status f)) →
  setStatusAction i (array_get (status f) i) f = Some f.
Proof.
  intros Hi. destruct (proj2 (wf_dom f Hg i) Hi) as [ns Hns].
  assert (neighbours_of f i = ns) as Hof
    by (unfold neighbours_of; by rewrite Hns).
  unfold setStatusAction. rewrite array_set_same by done.
  destruct (array_get (status f) i) eqn:Hst.
  - rewrite Hns. simpl. f_equal.
    assert ({[i]} ∪ aliveCells f = aliveCells f) as ->
      by (apply union_singleton_absorb; by apply Ha).
    assert (deadCellsWithAliveNeighbours f ∖ {[i]}
              ∪ list_to_set (filter (λ n, n ∉ aliveCells f) ns)
            = deadCellsWithAliveNeighbours f) as ->.
    { apply set_eq. intros n.
      rewrite elem_of_union, elem_of_difference, elem_of_singleton,
        elem_of_list_to_set, list_elem_of_filter.
      split.
      - intros [[? _]|[Hna Hn]]; [done|].
        apply Hf. split.
        + rewrite (Ha n) in Hna. by destruct (array_get (status f) n).
        + exists i. split; [|done]. apply (wf_sym f Hg). by rewrite Hof.
      - intros Hn. left. split; [done|]. intros ->.
        apply Hf in Hn as [Hd _]. congruence. }
    by destruct f.
  - rewrite Hns. simpl.
    rewrite (mapM_lonely f _ ns)
      by (intros n Hn; apply (wf_closed f Hg i); by rewrite Hof).
    simpl. f_equal.
    assert (aliveCells f ∖ {[i]} = aliveCells f) as ->.
    { apply set_eq. intros n.
      rewrite elem_of_difference, elem_of_singleton.
      split; [by intros [? _]|]. intros Hn. split; [done|]. intros ->.
      apply Ha in Hn. congruence. }
    assert ((if some_alive (aliveCells f) ns
             then {[i]} ∪ deadCellsWithAliveNeighbours f
             else deadCellsWithAliveNeighbours f)
            = deadCellsWithAliveNeighbours f) as ->.
    { destruct (some_alive (aliveCells f) ns) eqn:Hsome; [|done].
      apply alive_neighbour_iff in Hsome.
      apply union_singleton_absorb, Hf. split; [done|].
      unfold has_alive_neighbour. by rewrite Hof. }
    assert (deadCellsWithAliveNeighbours f
              ∖ list_to_set
                  (filter (λ p : Z * bool, p.2 = true)
                     ((λ n, (n, negb (some_alive (aliveCells f)
                                        (neighbours_of f n)))) <$> ns)).*1
            = deadCellsWithAliveNeighbours f) as ->.
    { apply set_eq. intros n.
      rewrite elem_of_difference, elem_of_list_to_set, elem_of_removed.
      split; [by intros [? _]|]. intros Hn. split; [done|].
      intros [_ Hnone]. apply negb_true_iff in Hnone.
      apply Hf in Hn as [_ Hsome].
      apply alive_neighbour_iff in Hsome. congruence. }
    by destruct f.
Qed.
End Edit.

(** ** The generation step on a valid Field *)

Lemma alive_neighbours_pos f i :
  alive_neighbours f i ≠ 0%nat → has_alive_neighbour f i.
Proof.
  unfold alive_neighbours, has_alive_neighbour.
  destruct (filter _ (neighbours_of f i)) as [|n l] eqn:Hfil; [done|].
  intros _.
  assert (n ∈ filter (λ n, array_get (status f) n = true) (neighbours_of f i))
    as [? ?]%list_elem_of_filter by (rewrite Hfil; by left).
  by exists n.
Qed.

Lemma array_get_in_dom f i :
  grid_wf f → array_get (status f) i = true → is_Some (neighbours f !! i).
Proof. intros Hg Hi. by apply wf_dom, array_get_in_range. Qed.

Lemma candidates_in_dom f i :
  valid f →
  i ∈ aliveCells f ∨ i ∈ deadCellsWithAliveNeighbours f →
  is_Some (neighbours f !! i).
Proof.
  intros [Hg Ha Hf] [Hi|Hi].
  - by apply array_get_in_dom, Ha.
  - apply Hf in Hi as [_ (n & Hn & _)]. by eapply neighbours_of_elem.
Qed.

(** Outside the candidates the rule keeps a cell dead. *)
Lemma rule_outside_candidates f i :
  valid f →
  i ∉ aliveCells f → i ∉ deadCellsWithAliveNeighbours f →
  rule_B3S23 (array_get (status f) i) (alive_neighbours f i) = false.
Proof.
  intros [Hg Ha Hf] Hna Hnf.
  rewrite (Ha i) in Hna.
  destruct (array_get (status f) i) eqn:Hst; [done|].
  destruct (decide (alive_neighbours f i = 0%nat)) as [->|Hpos]; [done|].
  destruct Hnf. apply Hf. split; [done|]. by apply alive_neighbours_pos.
Qed.

(** The incremental step against the naive one: on a valid Field the step
    returns, and its status is the naive status with the cell 0 dead. *)
Theorem tick_matches_naive_except_cell_zero f :
  valid f →
  ∃ r, tick f = Some r
       ∧ tick_status r
         = imap (λ k b, negb (k =? 0)%nat && b) (naive_step f).
Proof.
  intros Hvalid.
  destruct (tick_is_Some f (λ i, candidates_in_dom f i Hvalid)) as [r Hr].
  exists r. split; [done|].
  rewrite (tick_status_spec f r Hr). apply list_eq. intros k.
  unfold naive_step. rewrite !list_lookup_imap.
  destruct (status f !! k) as [st|] eqn:Hk; simpl; [|done]. f_equal.
  assert (array_get (status f) (Z.of_nat k) = st) as Hst
    by (by rewrite array_get_of_nat, Hk).
  destruct (negb (k =? 0)%nat && _) eqn:Hrhs.
  - apply andb_true_iff in Hrhs as [Hk0 Hrule].
    apply bool_decide_eq_true, (tick_aliveCells_spec f r Hr).
    rewrite Hst. split; [|split; [|done]].
    + destruct (Nat.eqb_spec k 0); [done|lia].
    + destruct (decide (Z.of_nat k ∈ aliveCells f)) as [|Hna]; [by left|].
      destruct (decide (Z.of_nat k ∈ deadCellsWithAliveNeighbours f))
        as [|Hnf]; [by right|].
      pose proof (rule_outside_candidates f _ Hvalid Hna Hnf) as Hout.
      rewrite Hst in Hout. congruence.
  - apply bool_decide_eq_false. rewrite (tick_aliveCells_spec f r Hr), Hst.
    intros (Hne & _ & Hrule). rewrite Hrule, andb_true_r in Hrhs.
    destruct (Nat.eqb_spec k 0); [lia|done].
Qed.

(** ** The invariants are kept *)

Lemma not_true_iff_false' (b : bool) : b ≠ true ↔ b = false.
Proof. by destruct b. Qed.

(** A generation keeps a valid Field valid. *)
Lemma tickAction_valid f :
  valid f →
  ∃ f', tickAction f = Some f' ∧ valid f'
        ∧ length (status f') = length (status f).
Proof.
  intros Hvalid. pose proof Hvalid as [Hg Ha Hf].
  destruct (tick_is_Some f (λ i, candidates_in_dom f i Hvalid)) as [r Hr].
  unfold tickAction. rewrite Hr. simpl. eexists. split; [done|].
  assert (length (tick_status r) = length (status f)) as Hlen
    by (rewrite (tick_status_spec f r Hr); apply length_imap).
  assert (∀ i, i ∈ tick_aliveCells r ↔ array_get (tick_status r) i = true)
    as Ha'.
  { intros i. rewrite array_get_true, (tick_status_spec f r Hr),
      list_lookup_imap, fmap_Some. split.
    - intros Hi. pose proof Hi as Hi'.
      apply (tick_aliveCells_spec f r Hr) in Hi' as (_ & Hcand & _).
      apply (candidates_in_dom f i Hvalid), (wf_dom f Hg) in Hcand.
      destruct (lookup_lt_is_Some_2 (status f) (Z.to_nat i)) as [st Hst];
        [lia|].
      split; [lia|]. exists st. split; [done|].
      rewrite Z2Nat.id by lia. by rewrite bool_decide_eq_true_2.
    - intros [Hi (st & _ & Hb)]. rewrite Z2Nat.id in Hb by lia.
      symmetry in Hb. by apply bool_decide_eq_true in Hb. }
  split; [|done]. split.
  - split; simpl.
    + intros i. rewrite Hlen. apply (wf_dom f Hg).
    + apply (wf_closed f Hg).
    + apply (wf_sym f Hg).
  - exact Ha'.
  - intros i. simpl. rewrite (tick_frontier_spec f r Hr).
    unfold has_alive_neighbour. simpl.
    change (neighbours_of {| status := tick_status r;
                             aliveCells := tick_aliveCells r;
                             deadCellsWithAliveNeighbours :=
                               tick_deadCellsWithAliveNeighbours r;
                             neighbours := neighbours f |} i)
      with (neighbours_of f i).
    rewrite <- not_true_iff_false', <- Ha'.
    split; intros [Hni (n & H1 & H2)]; (split; [done|]); exists n.
    + split; [by apply (wf_sym f Hg) | by apply Ha'].
    + split; [by apply Ha' | by apply (wf_sym f Hg)].
Qed.

(** An edit of a cell of the grid keeps a valid Field valid. *)
Lemma setStatusAction_valid f i v :
  valid f → 0 <= i < Z.of_nat (length (status f)) →
  ∃ f', setStatusAction i v f = Some f' ∧ valid f'
        ∧ length (status f') = length (status f).
Proof.
  intros Hvalid Hi. pose proof Hvalid as [Hg Ha Hf].
  destruct (proj2 (wf_dom f Hg i) Hi) as [ns Hns].
  assert (neighbours_of f i = ns) as Hof
    by (unfold neighbours_of; by rewrite Hns).
  pose proof (λ v j, array_get_set (status f) i j v Hi) as Hget.
  pose proof (array_set_length (status f) i v Hi) as Hlen.
  unfold setStatusAction. rewrite Hns. simpl. destruct v.
  - eexists. split; [done|]. split; [|done]. split.
    + split; simpl.
      * intros j. rewrite Hlen. apply (wf_dom f Hg).
      * apply (wf_closed f Hg).
      * apply (wf_sym f Hg).
    + intros j. simpl.
      rewrite Hget, elem_of_union, elem_of_singleton, (Ha j).
      destruct (decide (j = i)); intuition congruence.
    + intros j. unfold has_alive_neighbour. simpl.
      change (neighbours_of _ j) with (neighbours_of f j).
      rewrite elem_of_union, elem_of_difference, elem_of_singleton,
        elem_of_list_to_set, list_elem_of_filter, not_elem_of_union,
        not_elem_of_singleton, (Hf j), (Ha j), (Hget true j).
      setoid_rewrite (Hget true).
      destruct (decide (j = i)) as [->|Hne].
      * split; [|by intros [? _]]. intros [[_ ?]|[[? _] _]]; done.
      * split.
        -- intros [[[Hd (n & Hn & Hal)] _]|[[_ Hd%not_true_iff_false'] Hj]].
           ++ split; [done|]. exists n. split; [done|].
              by destruct (decide (n = i)).
           ++ split; [done|]. exists i. split.
              ** apply (wf_sym f Hg). by rewrite Hof.
              ** by rewrite decide_True.
        -- intros [Hd (n & Hn & Hal)].
           destruct (decide (n = i)) as [->|Hni].
           ++ right. split; [by rewrite Hd|].
              rewrite <- Hof. by apply (wf_sym f Hg).
           ++ left. split; [|done]. split; [done|]. by exists n.
  - rewrite (mapM_lonely f _ ns)
      by (intros n Hn; apply (wf_closed f Hg i); by rewrite Hof).
    simpl. eexists. split; [done|]. split; [|done].
    set (alive' := aliveCells f ∖ {[i]}).
    assert (∀ j, j ∈ alive' ↔ array_get (array_set (status f) i false) j = true)
      as Ha'.
    { intros j. unfold alive'.
      rewrite Hget, elem_of_difference, elem_of_singleton, (Ha j).
      destruct (decide (j = i)); intuition congruence. }
    assert (∀ l, some_alive alive' l = true
                 ↔ ∃ n, n ∈ l
                        ∧ array_get (array_set (status f) i false) n = true)
      as Hsome.
    { intros l. rewrite some_alive_true. by setoid_rewrite Ha'. }
    split.
    + split; simpl.
      * intros j. rewrite Hlen. apply (wf_dom f Hg).
      * apply (wf_closed f Hg).
      * apply (wf_sym f Hg).
    + exact Ha'.
    + intros j. unfold has_alive_neighbour. simpl.
      change (neighbours_of _ j) with (neighbours_of f j).
      rewrite elem_of_difference, elem_of_list_to_set, elem_of_removed,
        negb_true_iff, <- not_true_iff_false', Hsome.
      assert (j ∈ (if some_alive alive' ns
                   then {[i]} ∪ deadCellsWithAliveNeighbours f
                   else deadCellsWithAliveNeighbours f)
              ↔ (some_alive alive' ns = true ∧ j = i)
                ∨ j ∈ deadCellsWithAliveNeighbours f) as ->.
      { destruct (some_alive alive' ns).
        - rewrite elem_of_union, elem_of_singleton. intuition congruence.
        - intuition congruence. }
      rewrite Hsome, (Hf j). unfold has_alive_neighbour.
      setoid_rewrite (Hget false).
      destruct (decide (j = i)) as [->|Hne].
      * rewrite Hof. split.
        -- intros [[[Hs _]|[Hd (n & Hn & Hal)]] _]; (split; [done|]).
           ++ done.
           ++ exists n. split; [done|].
              rewrite decide_False; [done|]. intros ->. congruence.
        -- intros [_ Hs]. split; [by left|]. by intros [_ []].
      * split.
        -- intros [[[_ ?]|[Hd (n & Hn & Hal)]] Hkeep]; [done|].
           split; [done|].
           destruct (decide (n = i)) as [->|Hni].
           ++ destruct (some_alive alive' (neighbours_of f j)) eqn:Hsj.
              ** apply Hsome in Hsj as (m & Hm & Hmal).
                 rewrite Hget in Hmal. by exists m.
              ** destruct Hkeep. split.
                 { rewrite <- Hof. by apply (wf_sym f Hg). }
                 intros Hex.
                 assert (some_alive alive' (neighbours_of f j) = true)
                   by (apply Hsome; by setoid_rewrite Hget).
                 congruence.
           ++ exists n. split; [done|]. by rewrite decide_False.
        -- intros [Hd (n & Hn & Hal)]. split.
           ++ right. split; [done|]. exists n. split; [done|].
              by destruct (decide (n = i)).
           ++ intros [_ Hnone]. apply Hnone. by exists n.
Qed.

(** ** The reset *)

(** An ['init'] action replaces the status array and the neighbour map and
    passes the two sets on as they are. *)
Lemma initAction_fields payload f :
  status (initAction payload f) = init_status payload
  ∧ neighbours (initAction payload f) = init_neighbours payload
  ∧ aliveCells (initAction payload f) = aliveCells f
  ∧ deadCellsWithAliveNeighbours (initAction payload f)
    = deadCellsWithAliveNeighbours f.
Proof. done. Qed.

Lemma initField_status height width payload :
  initField height width = Some payload →
  init_status payload = replicate (Z.to_nat (height * width)) false.
Proof.
  unfold initField. destruct (valid_array_length _); [|done].
  by intros [= <-].
Qed.

(** ** The map an Initialize builds *)

Lemma imap_keys (g : Z → list Z) (l : list bool) :
  (imap (λ index _, (Z.of_nat index, g (Z.of_nat index))) l).*1
  = Z.of_nat <$> seq 0 (length l).
Proof.
  apply list_eq. intros k. rewrite !list_lookup_fmap, list_lookup_imap.
  destruct (l !! k) as [b|] eqn:Hk; simpl.
  - apply lookup_lt_Some in Hk. by rewrite lookup_seq_lt.
  - apply lookup_ge_None in Hk. by rewrite lookup_seq_ge.
Qed.

(** The map has the list [getNeighbours i height width] for every index
    of the grid and nothing else. *)
Lemma initField_neighbours height width payload i :
  initField height width = Some payload →
  init_neighbours payload !! i
  = if decide (0 <= i < height * width)
    then Some (getNeighbours i height width) else None.
Proof.
  unfold initField. destruct (valid_array_length _) eqn:Hlen; [|done].
  intros [= <-]. simpl.
  set (n := Z.to_nat (height * width)).
  set (g := λ i, getNeighbours i height width).
  apply andb_true_iff in Hlen as [Hlo%Z.leb_le _].
  destruct (decide (0 <= i < height * width)) as [Hi|Hi].
  - apply elem_of_list_to_map_1.
    + rewrite (imap_keys g). apply (NoDup_fmap_2 _), NoDup_seq.
    + apply elem_of_lookup_imap. exists (Z.to_nat i), false. split.
      * by rewrite Z2Nat.id by lia.
      * apply lookup_replicate_2. lia.
  - apply not_elem_of_list_to_map_1.
    rewrite (imap_keys g), length_replicate, list_elem_of_fmap.
    intros (k & -> & Hk%elem_of_seq). lia.
Qed.

(** A Field that holds the map of a grid with at least one row and one
    column, and a status array of the size of the grid, has a well-formed
    neighbour map. *)
Lemma toroidal_grid_wf height width payload f :
  1 <= height → 1 <= width →
  initField height width = Some payload →
  neighbours f = init_neighbours payload →
  length (status f) = Z.to_nat (height * width) →
  grid_wf f.
Proof.
  intros Hh Hw Hinit Hmap Hlen.
  assert (∀ i, neighbours f !! i
               = if decide (0 <= i < height * width)
                 then Some (getNeighbours i height width) else None) as Hnb
    by (intros i; rewrite Hmap; by apply initField_neighbours).
  assert (∀ i n, n ∈ neighbours_of f i →
                 0 <= i < height * width
                 ∧ n ∈ getNeighbours i height width
                 ∧ 0 <= n < height * width) as Hin.
  { intros i n. unfold neighbours_of. rewrite Hnb.
    destruct (decide _) as [Hi|]; simpl; [|by intros ?%elem_of_nil].
    intros Hn. split; [done|]. split; [done|].
    pose proof (getNeighbours_in_bounds _ _ Hh Hw i Hi) as Hb.
    rewrite list.Forall_forall in Hb. by apply Hb. }
  split.
  - intros i. rewrite Hnb, Hlen.
    destruct (decide (0 <= i < height * width)) as [Hi|Hi].
    + split; [lia | by eauto].
    + split; [by intros [? ?] | lia].
  - intros i n (_ & _ & Hn)%Hin. rewrite Hnb. by rewrite decide_True.
  - intros i n (Hi & Hn & Hnr)%Hin.
    unfold neighbours_of. rewrite Hnb, decide_True by done. simpl.
    by apply getNeighbours_sym.
Qed.

(** An Initialize of such a grid, on a Field whose two sets are empty,
    gives a valid Field. *)
Lemma initAction_valid height width payload f :
  1 <= height → 1 <= width →
  initField height width = Some payload →
  aliveCells f = ∅ → deadCellsWithAliveNeighbours f = ∅ →
  valid (initAction payload f)
  ∧ length (status (initAction payload f)) = Z.to_nat (height * width).
Proof.
  intros Hh Hw Hinit Hae Hfe.
  pose proof (initField_status _ _ _ Hinit) as Hst.
  assert (length (init_status payload) = Z.to_nat (height * width)) as Hlen
    by (by rewrite Hst, length_replicate).
  assert (∀ j, array_get (init_status payload) j = false) as Hdead.
  { intros j. destruct (array_get _ j) eqn:Hj; [|done].
    apply array_get_true in Hj as [_ Hj].
    rewrite Hst in Hj. by apply lookup_replicate_1 in Hj as [? _]. }
  split; [|done]. split.
  - by apply (toroidal_grid_wf height width payload).
  - intros i. simpl. rewrite Hae, Hdead. split; [|done].
    by intros ?%not_elem_of_empty.
  - intros i. simpl. rewrite Hfe. split; [by intros ?%not_elem_of_empty|].
    intros [_ (n & _ & Hn)]. simpl in Hn. by rewrite Hdead in Hn.
Qed.

(** What an Initialize does to a Field: the status and the map are those
    of the new grid, the two sets are the old ones. *)
Lemma reducer_Initialize f height width f' :
  reducer f (Initialize height width) = Some f' →
  status f' = replicate (Z.to_nat (height * width)) false
  ∧ (∀ i, neighbours f' !! i
          = if decide (0 <= i < height * width)
            then Some (getNeighbours i height width) else None)
  ∧ aliveCells f' = aliveCells f
  ∧ deadCellsWithAliveNeighbours f' = deadCellsWithAliveNeighbours f.
Proof.
  simpl. destruct (initField height width) as [payload|] eqn:Hinit; [|done].
  intros [= <-]. simpl. split; [by apply initField_status|].
  split; [|done]. intros i. by apply initField_neighbours.
Qed.

(** ** Reachable Fields *)

Lemma run_valid f events n :
  valid f → length (status f) = n →
  Forall (λ ev, match ev with
                | Initialize _ _ => False
                | SetCell index _ => 0 <= index < Z.of_nat n
                | Tick => True
                end) events →
  ∃ f', run f events = Some f' ∧ valid f' ∧ length (status f') = n.
Proof.
  intros Hvalid Hlen Hevs. revert f Hvalid Hlen.
  induction Hevs as [|ev events Hev _ IH]; intros f Hvalid Hlen.
  - by exists f.
  - destruct ev as [| index value |]; [done|..]; simpl.
    + destruct (setStatusAction_valid f index value Hvalid)
        as (f1 & -> & Hv1 & Hl1); [lia|].
      simpl. apply IH; [done | congruence].
    + destruct (tickAction_valid f Hvalid) as (f1 & -> & Hv1 & Hl1).
      simpl. apply IH; [done | congruence].
Qed.

(** After one Initialize of a grid with at least one row and one column,
    edits of cells of the grid and ticks never fail and keep both
    invariants. *)
Theorem reachable_valid height width events :
  1 <= height → 1 <= width → height * width < 2 ^ 32 →
  Forall (on_grid height width) events →
  ∃ f, run emptyField (Initialize height width :: events) = Some f
       ∧ valid f ∧ length (status f) = Z.to_nat (height * width).
Proof.
  intros Hh Hw Hmax Hevs. simpl.
  destruct (initField height width) as [payload|] eqn:Hinit.
  - simpl.
    destruct (initAction_valid height width payload emptyField)
      as [Hvalid Hlen]; [done..|].
    apply run_valid; [done..|].
    eapply list.Forall_impl; [exact Hevs|].
    intros [| index value |]; simpl; [done| |done]. nia.
  - unfold initField, valid_array_length in Hinit.
    destruct (Z.leb_spec 0 (height * width)); [|nia].
    destruct (Z.ltb_spec (height * width) (2 ^ 32)); [done|lia].
Qed.

(** ** Scenarios *)

Lemma glider_field_run : run emptyField glider_events = Some glider_field.
Proof. vm_compute; reflexivity. Qed.

Lemma corner_field_run : run emptyField corner_events = Some corner_field.
Proof. vm_compute; reflexivity. Qed.

Lemma corner_field_valid : valid corner_field.
Proof. apply validb_sound. vm_compute; reflexivity. Qed.

(** The sets an Initialize keeps can name cells the new grid does not
    have: the next Tick then reads a list the map lacks, and throws. *)
Lemma shrink_then_tick_fails :
  (aliveCells <$> run emptyField shrink_events) = Some {[399]}
  ∧ run emptyField (shrink_events ++ [Tick]) = None.
Proof. split; vm_compute; reflexivity. Qed.

(** * The claims *)

(** C1. The claim: on every valid Field the generation step yields the
    status sequence of the naive B3/S23 evaluation over the same neighbour
    map. The code falls short of it at the cell 0: on the valid 10 x 10
    Field with the cells 1, 10 and 11 alive, the cell 0 has three alive
    neighbours and is born under the rule, and [tickAction] leaves it dead,
    because the candidate filter [!!index] drops the index 0 together with
    the [null] entries. *)
Theorem tick_differs_from_naive_at_cell_zero :
  run emptyField corner_events = Some corner_field
  ∧ validb corner_field = true
  ∧ alive_neighbours corner_field 0 = 3%nat
  ∧ naive_step corner_field !! 0%nat = Some true
  ∧ tickAction corner_field = Some corner_next
  ∧ status corner_next !! 0%nat = Some false
  ∧ status corner_next ≠ naive_step corner_field.
Proof.
  assert (naive_step corner_field !! 0%nat = Some true) as Hnaive
    by (vm_compute; reflexivity).
  assert (status corner_next !! 0%nat = Some false) as Hnext
    by (vm_compute; reflexivity).
  do 3 (split; [vm_compute; reflexivity|]). split; [assumption|].
  split; [vm_compute; reflexivity|]. split; [assumption|].
  intros Heq. rewrite Heq in Hnext. congruence.
Qed.

(** C2. The claim: after any sequence of Initialize, SetCell and Tick
    events folded from the empty Field, a cell is in [aliveCells] exactly
    when its status is true and in the frontier exactly when it is dead
    with an alive neighbour. The code breaks it at a second Initialize:
    after [Initialize 10 10; SetCell 5 true; Initialize 10 11] the status
    is all false while the cell 5 is still in [aliveCells] and its old
    neighbour 4 still in the frontier, as [initAction] keeps both sets. *)
Theorem invariant_broken_after_resize :
  run emptyField [Initialize 10 10; SetCell 5 true; Initialize 10 11]
  = Some resized_field
  ∧ 5 ∈ aliveCells resized_field
  ∧ array_get (status resized_field) 5 = false
  ∧ 4 ∈ deadCellsWithAliveNeighbours resized_field
  ∧ existsb (array_get (status resized_field)) (neighbours_of resized_field 4)
    = false
  ∧ ¬ alive_inv resized_field
  ∧ ¬ frontier_inv resized_field.
Proof.
  assert (5 ∈ aliveCells resized_field) as H5
    by (apply (bool_decide_unpack _); vm_compute; exact I).
  assert (array_get (status resized_field) 5 = false) as Hd
    by (vm_compute; reflexivity).
  assert (4 ∈ deadCellsWithAliveNeighbours resized_field) as H4
    by (apply (bool_decide_unpack _); vm_compute; exact I).
  assert (existsb (array_get (status resized_field))
                  (neighbours_of resized_field 4) = false) as Hno
    by (vm_compute; reflexivity).
  split; [vm_compute; reflexivity|].
  split; [assumption|]. split; [assumption|].
  split; [assumption|]. split; [assumption|]. split.
  - intros Ha. apply Ha in H5. congruence.
  - intros Hf. apply Hf in H4 as [_ Hsome].
    apply existsb_array_get in Hsome. congruence.
Qed.

(** C3. The claim: an Initialize event resets the whole Field, whatever it
    held: all-false status of length height * width, the neighbour map of
    the new dimensions, empty [aliveCells] and empty frontier. The code
    resets the status and the map only: resizing the 10 x 10 Field with the
    cell 5 alive to 10 x 11 gives 110 dead cells and the new map, and leaves
    [aliveCells] = {5} and the frontier = the eight old neighbours of 5. *)
Theorem initialize_keeps_stale_sets :
  run emptyField [Initialize 10 10; SetCell 5 true] = Some edited_field
  ∧ reducer edited_field (Initialize 10 11) = Some resized_field
  ∧ status resized_field = replicate 110 false
  ∧ Some (neighbours resized_field) = init_neighbours <$> initField 10 11
  ∧ aliveCells resized_field = {[5]}
  ∧ deadCellsWithAliveNeighbours resized_field
    = list_to_set (getNeighbours 5 10 10).
Proof.
  repeat (split; [vm_compute; reflexivity|]). vm_compute; reflexivity.
Qed.

(** C4, counterexample. A SetCell on the empty Field is not a no-op: the
    neighbour map has no list for the index and the handler throws. *)
Lemma setCell_before_initialize_fails :
  reducer emptyField (SetCell 0 true) = None
  ∧ reducer emptyField (SetCell 0 true) ≠ Some emptyField.
Proof. split; [reflexivity | discriminate]. Qed.

(** C4, as amended. On the empty Field a Tick does not fail and returns the
    empty Field; a SetCell, for every index and value, fails: the handler
    reads the neighbour list of the index, which the empty map does not
    hold. *)
Theorem empty_field_tick_noop_setCell_fails :
  reducer emptyField Tick = Some emptyField
  ∧ ∀ index value, reducer emptyField (SetCell index value) = None.
Proof. split; [apply tick_emptyField | apply setStatusAction_emptyField]. Qed.

(** C5. Whatever the Field, in the Field the tick action returns the cell 0
    is dead: 0 is not in the new [aliveCells] and the new [status[0]] is
    false (absent when the status array is empty), also when 0 is a
    candidate that the rule keeps alive. *)
Theorem tickAction_cell_zero_dead f f' :
  tickAction f = Some f' →
  (0 ∉ aliveCells f')
  ∧ array_get (status f') 0 = false
  ∧ status f' !! 0%nat = (λ _, false) <$> status f !! 0%nat.
Proof.
  intros (r & Hr & ->)%tickAction_Some. simpl.
  pose proof (tick_zero_dead f r Hr) as H0.
  assert (tick_status r !! 0%nat = (λ _, false) <$> status f !! 0%nat) as Hs.
  { rewrite (tick_status_spec f r Hr), list_lookup_imap.
    by rewrite bool_decide_eq_false_2. }
  split; [done|]. split; [|done].
  unfold array_get. change (Z.to_nat 0) with 0%nat.
  rewrite Hs. by destruct (status f !! 0%nat).
Qed.

Lemma tickAction_cell_zero_dead_witness :
  naive_step corner_field !! 0%nat = Some true
  ∧ (0 ∉ aliveCells corner_next)
  ∧ array_get (status corner_next) 0 = false
  ∧ status corner_next !! 0%nat = (λ _, false) <$> status corner_field !! 0%nat.
Proof.
  split; [vm_compute; reflexivity|].
  apply (tickAction_cell_zero_dead corner_field corner_next).
  vm_compute; reflexivity.
Defined.

(** C6, counterexample. On the 2 x 2 grid the eight neighbours of the cell
    0 are not pairwise distinct. *)
Lemma getNeighbours_2x2_not_distinct :
  2 <= 2 ∧ 0 <= 0 < 2 * 2
  ∧ getNeighbours 0 2 2 = [3; 2; 3; 1; 1; 3; 2; 3]
  ∧ ¬ NoDup (getNeighbours 0 2 2).
Proof.
  split; [lia|]. split; [lia|]. split; [reflexivity|].
  intros Hnd. apply (getNeighbours_dup 2 2) in Hnd; lia.
Qed.

(** C6, as amended. For all height, width >= 1 and every index of the grid,
    [getNeighbours] returns exactly 8 indices, the cells in the 8 toroidal
    directions in row-major order; they are pairwise distinct exactly when
    height >= 3 and width >= 3, so duplicates occur for the grids with a
    height or a width of 1 or 2, and only for them. *)
Theorem getNeighbours_distinct_iff height width index :
  1 <= height → 1 <= width → 0 <= index < height * width →
  length (getNeighbours index height width) = 8%nat
  ∧ getNeighbours index height width = neighborsOf index height width
  ∧ (NoDup (getNeighbours index height width) ↔ 3 <= height ∧ 3 <= width).
Proof.
  intros Hh Hw Hi. split; [reflexivity|].
  split; [by apply getNeighbours_neighborsOf|]. split.
  - by apply getNeighbours_dup.
  - intros [? ?]. by apply getNeighbours_NoDup.
Qed.

Lemma getNeighbours_distinct_iff_witness :
  length (getNeighbours 7 5 5) = 8%nat
  ∧ getNeighbours 7 5 5 = neighborsOf 7 5 5
  ∧ (NoDup (getNeighbours 7 5 5) ↔ 3 <= 5 ∧ 3 <= 5).
Proof. apply (getNeighbours_distinct_iff 5 5 7); lia. Defined.

(** C7. For all height, width >= 1 and every index of the grid, each of the
    8 indices [getNeighbours] returns lies in [0, height * width). *)
Theorem getNeighbours_in_range height width index :
  1 <= height → 1 <= width → 0 <= index < height * width →
  length (getNeighbours index height width) = 8%nat
  ∧ Forall (λ n, 0 <= n < height * width) (getNeighbours index height width).
Proof.
  intros Hh Hw Hi. split; [reflexivity|]. by apply getNeighbours_in_bounds.
Qed.

Lemma getNeighbours_in_range_witness :
  length (getNeighbours 0 1 3) = 8%nat
  ∧ Forall (λ n, 0 <= n < 1 * 3) (getNeighbours 0 1 3).
Proof. apply (getNeighbours_in_range 1 3 0); lia. Defined.

(** C8. On a valid Field, a SetCell that gives an in-range cell the value
    it already has returns the Field unchanged: same status, [aliveCells],
    frontier and neighbour map. *)
Theorem setCell_current_value_noop f i v :
  valid f → 0 <= i → status f !! Z.to_nat i = Some v →
  reducer f (SetCell i v) = Some f.
Proof.
  intros Hvalid Hi Hv. simpl.
  assert (array_get (status f) i = v) as <-.
  { unfold array_get. destruct (Z.ltb_spec i 0); [lia|]. by rewrite Hv. }
  apply setStatusAction_same; [done|].
  apply lookup_lt_Some in Hv. lia.
Qed.

Lemma setCell_current_value_noop_witness :
  reducer corner_field (SetCell 11 true) = Some corner_field
  ∧ reducer corner_field (SetCell 0 false) = Some corner_field.
Proof.
  split.
  - apply (setCell_current_value_noop corner_field 11 true);
      [apply validb_sound; vm_compute; reflexivity | lia
      | vm_compute; reflexivity].
  - apply (setCell_current_value_noop corner_field 0 false);
      [apply validb_sound; vm_compute; reflexivity | lia
      | vm_compute; reflexivity].
Defined.

(** C9. The glider on the 5 x 5 torus: with the cells (1,2), (2,3), (3,1),
    (3,2), (3,3) alive, one Tick gives the cells (2,1), (2,3), (3,2), (3,3),
    (4,2), and four Ticks give the first shape moved by (1,1). *)
Theorem glider_scenario :
  run emptyField glider_events = Some glider_field
  ∧ validb glider_field = true
  ∧ aliveCells glider_field = of_coords 5 glider_coords
  ∧ (aliveCells <$> run glider_field [Tick])
    = Some (of_coords 5 [(2, 1); (2, 3); (3, 2); (3, 3); (4, 2)])
  ∧ (aliveCells <$> run glider_field [Tick; Tick; Tick; Tick])
    = Some (set_map (shift 5 5 1 1) (aliveCells glider_field))
  ∧ (validb <$> run glider_field [Tick; Tick; Tick; Tick]) = Some true.
Proof.
  repeat (split; [vm_compute; reflexivity|]). vm_compute; reflexivity.
Qed.

(** C10. A Tick and a SetCell leave the neighbour map of the Field as it
    is; an Initialize puts the map of its dimensions in its place. *)
Theorem neighbours_frame f ev f' :
  reducer f ev = Some f' →
  match ev with
  | Initialize height width =>
      Some (neighbours f') = init_neighbours <$> initField height width
  | SetCell _ _ | Tick => neighbours f' = neighbours f
  end.
Proof.
  destruct ev as [height width|index value|]; simpl.
  - destruct (initField height width) as [payload|]; simpl; [|done].
    by intros [= <-].
  - unfold setStatusAction. destruct value.
    + destruct (neighbours f !! index); simpl; [|done]. by intros [= <-].
    + destruct (neighbours f !! index); simpl; [|done].
      destruct (mapM _ _); simpl; [|done]. by intros [= <-].
  - intros (r & _ & ->)%tickAction_Some. done.
Qed.

Lemma neighbours_frame_witness :
  neighbours (default emptyField (reducer corner_field Tick))
  = neighbours corner_field
  ∧ neighbours (default emptyField (reducer corner_field (SetCell 11 false)))
    = neighbours corner_field.
Proof.
  split.
  - apply (neighbours_frame corner_field Tick). vm_compute; reflexivity.
  - apply (neighbours_frame corner_field (SetCell 11 false)).
    vm_compute; reflexivity.
Defined.


(** * Further properties of the engine *)

(** ** Topology *)

Lemma wrap_fixed_point height width row col :
  1 <= height → 1 <= width → 0 <= row < height → 0 <= col < width →
  (up height row = row ↔ height = 1)
  ∧ (down height row = row ↔ height = 1)
  ∧ (left width col = col ↔ width = 1)
  ∧ (right width col = col ↔ width = 1).
Proof.
  intros Hh Hw Hr Hc. unfold up, down, left, right.
  destruct (Z.eqb_spec row 0), (Z.eqb_spec row (height - 1)),
    (Z.eqb_spec col 0), (Z.eqb_spec col (width - 1)); lia.
Qed.

(** X1. On a grid with at least one row and one column, being a neighbour
    is symmetric: [j] is in the list of [i] exactly when [i] is in the list
    of [j]. *)
Theorem neighbour_relation_symmetric height width i j :
  1 <= height → 1 <= width →
  0 <= i < height * width → 0 <= j < height * width →
  j ∈ getNeighbours i height width ↔ i ∈ getNeighbours j height width.
Proof.
  intros Hh Hw Hi Hj. split; intros Hin.
  - by apply getNeighbours_sym.
  - by apply getNeighbours_sym.
Qed.

Lemma neighbour_relation_symmetric_witness :
  11 ∈ getNeighbours 0 3 4 ↔ 0 ∈ getNeighbours 11 3 4.
Proof. apply (neighbour_relation_symmetric 3 4 0 11); lia. Defined.

(** X2. A cell is in its own neighbour list exactly on the grids with a
    single row or a single column. *)
Theorem self_neighbour_iff height width index :
  1 <= height → 1 <= width → 0 <= index < height * width →
  index ∈ getNeighbours index height width ↔ height = 1 ∨ width = 1.
Proof.
  intros Hh Hw Hi.
  destruct (index_cell height width Hw index Hi) as (Heq & Hr & Hc).
  set (r := index / width) in *. set (c := index mod width) in *.
  destruct (wrap_fixed_point height width r c) as (Hu & Hd & Hl & Hrt);
    [done..|].
  pose proof (up_bounds height Hh r Hr).
  pose proof (down_bounds height Hh r Hr).
  pose proof (left_bounds width Hw c Hc).
  pose proof (right_bounds width Hw c Hc).
  rewrite Heq at 2. rewrite (getNeighbours_cell height width) by done.
  rewrite !elem_of_cons, elem_of_nil, Heq. split.
  - intros [H'|[H'|[H'|[H'|[H'|[H'|[H'|[H'|[]]]]]]]]];
      symmetry in H'; apply (cell_inj width Hw) in H' as [Hrow Hcol];
      try done; intuition lia.
  - intros [Hone|Hone].
    + right. left. f_equal. symmetry. by apply Hu.
    + do 3 right. left. f_equal. symmetry. by apply Hl.
Qed.

Lemma self_neighbour_iff_witness :
  (2 ∈ getNeighbours 2 1 5 ↔ 1 = 1 ∨ 5 = 1)
  ∧ (7 ∈ getNeighbours 7 5 5 ↔ 5 = 1 ∨ 5 = 1).
Proof.
  split; [apply (self_neighbour_iff 1 5 2) | apply (self_neighbour_iff 5 5 7)];
    lia.
Defined.

(** ** The generation step *)

Lemma tickAction_is_Some f : is_Some (tickAction f) ↔ is_Some (tick f).
Proof.
  unfold tickAction. destruct (tick f); simpl; split; intros [? ?];
    by eauto.
Qed.

(** X3. A Tick returns exactly when the neighbour map has a list for every
    member of [aliveCells] and of the frontier; otherwise it throws. *)
Theorem tick_returns_iff f :
  is_Some (reducer f Tick)
  ↔ aliveCells f ∪ deadCellsWithAliveNeighbours f ⊆ dom (neighbours f).
Proof.
  simpl. rewrite tickAction_is_Some, elem_of_subseteq.
  setoid_rewrite elem_of_union. setoid_rewrite elem_of_dom. split.
  - intros [r Hr] i Hi.
    destruct (neighbours f !! i) eqn:Hnone; [by eauto|].
    by rewrite (tick_None f i Hi Hnone) in Hr.
  - apply tick_is_Some.
Qed.

Lemma tick_returns_iff_witness :
  is_Some (reducer corner_field Tick)
  ↔ aliveCells corner_field ∪ deadCellsWithAliveNeighbours corner_field
    ⊆ dom (neighbours corner_field).
Proof. apply (tick_returns_iff corner_field). Defined.

(** X4. After a Tick a cell is in [aliveCells] exactly when it was in
    [aliveCells] or in the frontier before, B3/S23 on its old status and
    the count of its alive neighbours keeps it alive, and it is not the
    cell 0. No other cell comes alive. *)
Theorem tick_alive_cells f f' :
  reducer f Tick = Some f' →
  ∀ i, i ∈ aliveCells f'
       ↔ i ≠ 0
         ∧ (i ∈ aliveCells f ∨ i ∈ deadCellsWithAliveNeighbours f)
         ∧ rule_B3S23 (array_get (status f) i) (alive_neighbours f i) = true.
Proof.
  simpl. intros (r & Hr & ->)%tickAction_Some i. simpl.
  apply (tick_aliveCells_spec f r Hr).
Qed.

Lemma tick_alive_cells_witness :
  (0 ∈ aliveCells corner_next
   ↔ 0 ≠ 0
     ∧ (0 ∈ aliveCells corner_field
        ∨ 0 ∈ deadCellsWithAliveNeighbours corner_field)
     ∧ rule_B3S23 (array_get (status corner_field) 0)
                  (alive_neighbours corner_field 0) = true)
  ∧ (11 ∈ aliveCells corner_next
     ↔ 11 ≠ 0
       ∧ (11 ∈ aliveCells corner_field
          ∨ 11 ∈ deadCellsWithAliveNeighbours corner_field)
       ∧ rule_B3S23 (array_get (status corner_field) 11)
                    (alive_neighbours corner_field 11) = true).
Proof.
  split; apply (tick_alive_cells corner_field corner_next);
    vm_compute; reflexivity.
Defined.

(** X5. The Field a Tick returns is consistent in itself, whatever the
    Field before: the status array keeps its length and is true exactly at
    the cells of the new [aliveCells] inside the array, the new frontier
    holds the neighbours of the new alive cells that are not alive, and the
    two sets are disjoint. *)
Theorem tick_result_consistent f f' :
  reducer f Tick = Some f' →
  length (status f') = length (status f)
  ∧ (∀ i, array_get (status f') i = true
          ↔ 0 <= i < Z.of_nat (length (status f)) ∧ i ∈ aliveCells f')
  ∧ (∀ n, n ∈ deadCellsWithAliveNeighbours f'
          ↔ (n ∉ aliveCells f')
            ∧ (∃ i, i ∈ aliveCells f' ∧ n ∈ neighbours_of f i))
  ∧ aliveCells f' ## deadCellsWithAliveNeighbours f'.
Proof.
  simpl. intros (r & Hr & ->)%tickAction_Some. simpl.
  pose proof (tick_frontier_spec f r Hr) as Hfr.
  split; [|split; [|split; [exact Hfr|]]].
  - rewrite (tick_status_spec f r Hr). apply length_imap.
  - intros i.
    rewrite array_get_true, (tick_status_spec f r Hr), list_lookup_imap,
      fmap_Some.
    split.
    + intros [Hi (st & Hst & Hb)]. apply lookup_lt_Some in Hst.
      rewrite Z2Nat.id in Hb by lia. symmetry in Hb.
      apply bool_decide_eq_true in Hb. split; [lia | done].
    + intros [Hi Hin]. split; [lia|].
      destruct (lookup_lt_is_Some_2 (status f) (Z.to_nat i)) as [st Hst];
        [lia|].
      exists st. split; [done|].
      rewrite Z2Nat.id by lia. by rewrite bool_decide_eq_true_2.
  - apply elem_of_disjoint. intros n Hn [Hnot _]%Hfr. done.
Qed.

Lemma tick_result_consistent_witness :
  length (status corner_next) = length (status corner_field)
  ∧ (∀ i, array_get (status corner_next) i = true
          ↔ 0 <= i < Z.of_nat (length (status corner_field))
            ∧ i ∈ aliveCells corner_next)
  ∧ (∀ n, n ∈ deadCellsWithAliveNeighbours corner_next
          ↔ (n ∉ aliveCells corner_next)
            ∧ (∃ i, i ∈ aliveCells corner_next
                    ∧ n ∈ neighbours_of corner_field i))
  ∧ aliveCells corner_next ## deadCellsWithAliveNeighbours corner_next.
Proof.
  apply (tick_result_consistent corner_field corner_next).
  vm_compute; reflexivity.
Defined.

(** X6. On a valid Field a Tick returns, and the status it returns is the
    naive B3/S23 generation over the same neighbour map with the cell 0
    set dead. *)
Theorem tick_is_naive_step_off_cell_zero f :
  valid f →
  ∃ f', reducer f Tick = Some f'
        ∧ status f' = imap (λ k b, negb (k =? 0)%nat && b) (naive_step f).
Proof.
  intros Hvalid. simpl.
  destruct (tick_matches_naive_except_cell_zero f Hvalid) as (r & Hr & Hst).
  unfold tickAction. rewrite Hr. simpl. eexists. split; [done|]. exact Hst.
Qed.

Lemma tick_is_naive_step_off_cell_zero_witness :
  ∃ f', reducer glider_field Tick = Some f'
        ∧ status f'
          = imap (λ k b, negb (k =? 0)%nat && b) (naive_step glider_field).
Proof.
  apply (tick_is_naive_step_off_cell_zero glider_field).
  apply validb_sound. vm_compute; reflexivity.
Defined.

(** X7. A Tick keeps a valid Field valid: it returns, both invariants hold
    of the new Field, and the length of the status array and the neighbour
    map are the old ones. *)
Theorem tick_keeps_invariants f :
  valid f →
  ∃ f', reducer f Tick = Some f'
        ∧ valid f'
        ∧ length (status f') = length (status f)
        ∧ neighbours f' = neighbours f.
Proof.
  intros Hvalid. simpl.
  destruct (tickAction_valid f Hvalid) as (f' & Hf' & Hv' & Hlen).
  exists f'. split; [done|]. split; [done|]. split; [done|].
  by apply tickAction_Some in Hf' as (r & _ & ->).
Qed.

Lemma tick_keeps_invariants_witness :
  ∃ f', reducer corner_field Tick = Some f'
        ∧ valid f'
        ∧ length (status f') = length (status corner_field)
        ∧ neighbours f' = neighbours corner_field.
Proof.
  apply (tick_keeps_invariants corner_field).
  apply validb_sound. vm_compute; reflexivity.
Defined.

(** ** The reset *)

(** X8. An Initialize that returns had a product of dimensions that is an
    array length; it leaves a status array of that length, all false, and
    a neighbour map with the list [getNeighbours i height width] for
    exactly the indices [0 <= i < height * width]; the two sets of the
    Field are passed on untouched. *)
Theorem initialize_effect f height width f' :
  reducer f (Initialize height width) = Some f' →
  0 <= height * width < 2 ^ 32
  ∧ status f' = replicate (Z.to_nat (height * width)) false
  ∧ (∀ i, neighbours f' !! i
          = if decide (0 <= i < height * width)
            then Some (getNeighbours i height width) else None)
  ∧ aliveCells f' = aliveCells f
  ∧ deadCellsWithAliveNeighbours f' = deadCellsWithAliveNeighbours f.
Proof.
  intros Hred. split; [|by apply reducer_Initialize].
  simpl in Hred. unfold initField, valid_array_length in Hred.
  destruct (Z.leb_spec 0 (height * width)); [|done].
  destruct (Z.ltb_spec (height * width) (2 ^ 32)); [lia|done].
Qed.

Lemma initialize_effect_witness :
  0 <= 10 * 11 < 2 ^ 32
  ∧ status resized_field = replicate (Z.to_nat (10 * 11)) false
  ∧ (∀ i, neighbours resized_field !! i
          = if decide (0 <= i < 10 * 11)
            then Some (getNeighbours i 10 11) else None)
  ∧ aliveCells resized_field = aliveCells edited_field
  ∧ deadCellsWithAliveNeighbours resized_field
    = deadCellsWithAliveNeighbours edited_field.
Proof.
  apply (initialize_effect edited_field 10 11 resized_field).
  vm_compute; reflexivity.
Defined.

Lemma alive_neighbours_all_dead f i :
  (∀ n, array_get (status f) n = false) → alive_neighbours f i = 0%nat.
Proof.
  intros Hdead. unfold alive_neighbours.
  induction (neighbours_of f i) as [|n l IH]; [done|].
  rewrite filter_cons, Hdead. by destruct (decide _).
Qed.

Lemma array_get_replicate_false n i : array_get (replicate n false) i = false.
Proof.
  destruct (array_get _ i) eqn:Hi; [|done].
  apply array_get_true in Hi as [_ Hi].
  by apply lookup_replicate_1 in Hi as [? _].
Qed.

(** X9. A Tick that follows an Initialize, if it returns, returns the
    cleared Field: no alive cell, an empty frontier and the all-false
    status, whatever the two sets held before the Initialize. *)
Theorem tick_after_initialize_clears f height width f1 f2 :
  reducer f (Initialize height width) = Some f1 →
  reducer f1 Tick = Some f2 →
  aliveCells f2 = ∅
  ∧ deadCellsWithAliveNeighbours f2 = ∅
  ∧ status f2 = replicate (Z.to_nat (height * width)) false
  ∧ neighbours f2 = neighbours f1.
Proof.
  intros (Hst & _)%reducer_Initialize. simpl.
  intros (r & Hr & ->)%tickAction_Some. simpl.
  assert (∀ n, array_get (status f1) n = false) as Hdead
    by (intros n; rewrite Hst; apply array_get_replicate_false).
  assert (tick_aliveCells r = ∅) as Hnone.
  { apply elem_of_equiv_empty_L. intros i.
    rewrite (tick_aliveCells_spec f1 r Hr), Hdead,
      alive_neighbours_all_dead by done.
    by intros (_ & _ & ?). }
  split; [done|]. split; [|split; [|done]].
  - apply elem_of_equiv_empty_L. intros n.
    rewrite (tick_frontier_spec f1 r Hr), Hnone.
    by intros [_ (i & ?%not_elem_of_empty & _)].
  - rewrite (tick_status_spec f1 r Hr), Hnone, Hst.
    apply list_eq. intros k. rewrite list_lookup_imap.
    destruct (replicate _ false !! k) as [b|] eqn:Hk; simpl; [|done].
    apply lookup_replicate_1 in Hk as [-> _].
    by rewrite bool_decide_eq_false_2 by apply not_elem_of_empty.
Qed.

Lemma tick_after_initialize_clears_witness :
  aliveCells resized_next = ∅
  ∧ deadCellsWithAliveNeighbours resized_next = ∅
  ∧ status resized_next = replicate (Z.to_nat (10 * 11)) false
  ∧ neighbours resized_next = neighbours resized_field.
Proof.
  apply (tick_after_initialize_clears edited_field 10 11
           resized_field resized_next); vm_compute; reflexivity.
Defined.

(** X10. When an Initialize makes the grid smaller and one of the two sets
    names a cell the new grid does not have, the next Tick throws. *)
Theorem tick_after_shrink_throws f height width f1 i :
  reducer f (Initialize height width) = Some f1 →
  i ∈ aliveCells f ∪ deadCellsWithAliveNeighbours f →
  ¬ 0 <= i < height * width →
  reducer f1 Tick = None.
Proof.
  intros (_ & Hnb & Ha & Hf)%reducer_Initialize Hi Hout. simpl.
  unfold tickAction. rewrite (tick_None f1 i); [done| |].
  - rewrite Ha, Hf. by apply elem_of_union.
  - rewrite Hnb. by rewrite decide_False.
Qed.

Lemma tick_after_shrink_throws_witness : reducer shrunk_field Tick = None.
Proof.
  apply (tick_after_shrink_throws big_field 10 10 shrunk_field 399).
  - vm_compute; reflexivity.
  - apply (bool_decide_unpack _). vm_compute; exact I.
  - lia.
Defined.

(** ** The edit handler *)

Lemma setStatusAction_Some index value f f' :
  setStatusAction index value f = Some f' →
  is_Some (neighbours f !! index)
  ∧ status f' = array_set (status f) index value
  ∧ neighbours f' = neighbours f
  ∧ aliveCells f'
    = (if value then {[index]} ∪ aliveCells f else aliveCells f ∖ {[index]}).
Proof.
  unfold setStatusAction. destruct value.
  - destruct (neighbours f !! index); simpl; [|done].
    intros [= <-]. by eauto.
  - destruct (neighbours f !! index); simpl; [|done].
    destruct (mapM _ _); simpl; [|done]. intros [= <-]. by eauto.
Qed.

(** X11. A SetCell returns exactly when the neighbour map has a list for
    the index and, when the cell is set dead, a list for each of its
    neighbours too; otherwise it throws. *)
Theorem setCell_returns_iff f index value :
  is_Some (reducer f (SetCell index value))
  ↔ index ∈ dom (neighbours f)
    ∧ (value = true
       ∨ list_to_set (neighbours_of f index) ⊆ dom (neighbours f)).
Proof.
  simpl. unfold setStatusAction, neighbours_of. rewrite elem_of_dom.
  destruct (neighbours f !! index) as [ns|] eqn:Hns; simpl.
  - destruct value; simpl.
    + split; [by eauto|]. by eauto.
    + rewrite elem_of_subseteq. setoid_rewrite elem_of_list_to_set.
      setoid_rewrite elem_of_dom. split.
      * intros Hsome. split; [by eauto|]. right. intros n Hn.
        destruct (mapM _ ns) as [lonely|] eqn:Hl;
          [|by destruct Hsome].
        apply mapM_Some_1 in Hl.
        apply list_elem_of_lookup in Hn as [k Hk].
        destruct (Forall2_lookup_l _ _ _ _ _ Hl Hk) as (y & _ & Hy).
        destruct (neighbours f !! n); [by eauto|done].
      * intros [_ [?|Hall]]; [done|].
        rewrite (mapM_lonely f _ ns Hall). simpl. by eauto.
  - split; [destruct value; by intros [? ?]|]. by intros [[? ?] _].
Qed.

Lemma setCell_returns_iff_witness :
  is_Some (reducer corner_field (SetCell 100 false))
  ↔ 100 ∈ dom (neighbours corner_field)
    ∧ (false = true
       ∨ list_to_set (neighbours_of corner_field 100)
         ⊆ dom (neighbours corner_field)).
Proof. apply (setCell_returns_iff corner_field 100 false). Defined.

(** X12. A SetCell of a cell inside the status array writes that cell and
    no other: the array keeps its length, reads the new value at the index
    and the old values elsewhere; [aliveCells] gains or loses the index and
    nothing else; and a cell set alive is not in the frontier. *)
Theorem setCell_effect f index value f' :
  reducer f (SetCell index value) = Some f' →
  0 <= index < Z.of_nat (length (status f)) →
  length (status f') = length (status f)
  ∧ (∀ j, array_get (status f') j
          = if decide (j = index) then value else array_get (status f) j)
  ∧ (∀ j, j ∈ aliveCells f'
          ↔ if decide (j = index) then value = true else j ∈ aliveCells f)
  ∧ (index ∈ deadCellsWithAliveNeighbours f' → value = false).
Proof.
  simpl. intros Hset Hi.
  pose proof (setStatusAction_Some _ _ _ _ Hset) as (_ & Hst & _ & Hal).
  split; [rewrite Hst; by apply array_set_length|].
  split; [intros j; rewrite Hst; by apply array_get_set|]. split.
  - intros j. rewrite Hal. destruct value.
    + rewrite elem_of_union, elem_of_singleton.
      destruct (decide (j = index)); intuition congruence.
    + rewrite elem_of_difference, elem_of_singleton.
      destruct (decide (j = index)); intuition congruence.
  - destruct value; [|done]. intros Hin. exfalso. revert Hin.
    unfold setStatusAction in Hset.
    destruct (neighbours f !! index) as [ns|]; simpl in Hset; [|done].
    injection Hset as <-. simpl.
    rewrite elem_of_union, elem_of_difference, elem_of_singleton,
      elem_of_list_to_set, list_elem_of_filter, not_elem_of_union,
      not_elem_of_singleton.
    intuition congruence.
Qed.

Lemma setCell_effect_witness :
  let f' := default emptyField (reducer corner_field (SetCell 0 true)) in
  length (status f') = length (status corner_field)
  ∧ (∀ j, array_get (status f') j
          = if decide (j = 0) then true else array_get (status corner_field) j)
  ∧ (∀ j, j ∈ aliveCells f'
          ↔ if decide (j = 0) then true = true else j ∈ aliveCells corner_field)
  ∧ (0 ∈ deadCellsWithAliveNeighbours f' → true = false).
Proof.
  intros f'. apply (setCell_effect corner_field 0 true f').
  - vm_compute; reflexivity.
  - vm_compute. split; [discriminate | reflexivity].
Defined.

(** X13. A SetCell of a cell of the grid keeps a valid Field valid: it
    returns, both invariants hold of the new Field, and the cell reads the
    value it was given. *)
Theorem setCell_keeps_invariants f index value :
  valid f → 0 <= index < Z.of_nat (length (status f)) →
  ∃ f', reducer f (SetCell index value) = Some f'
        ∧ valid f'
        ∧ length (status f') = length (status f)
        ∧ array_get (status f') index = value.
Proof.
  intros Hvalid Hi. simpl.
  destruct (setStatusAction_valid f index value Hvalid Hi)
    as (f' & Hf' & Hv' & Hlen).
  exists f'. split; [done|]. split; [done|]. split; [done|].
  apply setStatusAction_Some in Hf' as (_ & -> & _).
  rewrite array_get_set by done. by rewrite decide_True.
Qed.

Lemma setCell_keeps_invariants_witness :
  ∃ f', reducer corner_field (SetCell 0 true) = Some f'
        ∧ valid f'
        ∧ length (status f') = length (status corner_field)
        ∧ array_get (status f') 0 = true.
Proof.
  apply (setCell_keeps_invariants corner_field 0 true).
  - apply validb_sound. vm_compute; reflexivity.
  - vm_compute. split; [discriminate | reflexivity].
Defined.

(** Two valid Fields with the same status and the same neighbour map are
    the same Field: the invariants fix the two sets. *)
Lemma valid_unique f g :
  valid f → valid g →
  status f = status g → neighbours f = neighbours g → f = g.
Proof.
  intros [_ Haf Hff] [_ Hag Hfg] Hst Hnb.
  assert (aliveCells f = aliveCells g) as Hal.
  { apply set_eq. intros i. by rewrite (Haf i), (Hag i), Hst. }
  assert (deadCellsWithAliveNeighbours f = deadCellsWithAliveNeighbours g)
    as Hfr.
  { apply set_eq. intros i. rewrite (Hff i), (Hfg i).
    unfold has_alive_neighbour, neighbours_of. by rewrite Hst, Hnb. }
  destruct f, g. simpl in *. by subst.
Qed.

Lemma array_set_set a i v w :
  0 <= i < Z.of_nat (length a) →
  array_set (array_set a i v) i w = array_set a i w.
Proof.
  intros Hi. unfold array_set.
  destruct (Z.ltb_spec i 0); [lia|].
  destruct (Nat.ltb_spec (Z.to_nat i) (length a)); [|lia].
  rewrite length_insert.
  destruct (Nat.ltb_spec (Z.to_nat i) (length a)); [|lia].
  apply list_insert_insert_eq.
Qed.

Lemma array_set_commute a i j v w :
  0 <= i < Z.of_nat (length a) → 0 <= j < Z.of_nat (length a) → i ≠ j →
  array_set (array_set a i v) j w = array_set (array_set a j w) i v.
Proof.
  intros Hi Hj Hne. unfold array_set.
  destruct (Z.ltb_spec i 0); [lia|]. destruct (Z.ltb_spec j 0); [lia|].
  destruct (Nat.ltb_spec (Z.to_nat i) (length a)); [|lia].
  destruct (Nat.ltb_spec (Z.to_nat j) (length a)); [|lia].
  rewrite !length_insert.
  destruct (Nat.ltb_spec (Z.to_nat i) (length a)); [|lia].
  destruct (Nat.ltb_spec (Z.to_nat j) (length a)); [|lia].
  apply list_insert_insert_ne. lia.
Qed.

(** Two edits of cells of the grid, on a valid Field: the Field they give
    is valid and its status is the array written twice. *)
Lemma two_edits_valid f i v j w :
  valid f →
  0 <= i < Z.of_nat (length (status f)) →
  0 <= j < Z.of_nat (length (status f)) →
  ∃ f2, run f [SetCell i v; SetCell j w] = Some f2
        ∧ valid f2
        ∧ status f2 = array_set (array_set (status f) i v) j w
        ∧ neighbours f2 = neighbours f.
Proof.
  intros Hvalid Hi Hj. simpl.
  destruct (setStatusAction_valid f i v Hvalid Hi) as (f1 & Hf1 & Hv1 & Hl1).
  rewrite Hf1. simpl.
  destruct (setStatusAction_valid f1 j w Hv1) as (f2 & Hf2 & Hv2 & Hl2);
    [lia|].
  rewrite Hf2. simpl. exists f2. split; [done|]. split; [done|].
  apply setStatusAction_Some in Hf1 as (_ & Hs1 & Hn1 & _).
  apply setStatusAction_Some in Hf2 as (_ & Hs2 & Hn2 & _).
  split; congruence.
Qed.

(** X14. Two SetCell events on the same cell of a valid Field give the
    Field of the second one alone: the last write wins, in the status and
    in both sets. *)
Theorem setCell_last_write_wins f index v w :
  valid f → 0 <= index < Z.of_nat (length (status f)) →
  run f [SetCell index v; SetCell index w] = run f [SetCell index w]
  ∧ is_Some (run f [SetCell index w]).
Proof.
  intros Hvalid Hi.
  destruct (two_edits_valid f index v index w Hvalid Hi Hi)
    as (f2 & Hrun & Hv2 & Hs2 & Hn2).
  destruct (setStatusAction_valid f index w Hvalid Hi)
    as (g & Hg & Hvg & _).
  rewrite Hrun. simpl. rewrite Hg. simpl. split; [|by eauto].
  f_equal. apply valid_unique; [done..| |].
  - apply setStatusAction_Some in Hg as (_ & -> & _).
    rewrite Hs2. by apply array_set_set.
  - apply setStatusAction_Some in Hg as (_ & _ & -> & _). done.
Qed.

Lemma setCell_last_write_wins_witness :
  run corner_field [SetCell 0 true; SetCell 0 false]
  = run corner_field [SetCell 0 false]
  ∧ is_Some (run corner_field [SetCell 0 false]).
Proof.
  apply (setCell_last_write_wins corner_field 0 true false).
  - apply validb_sound. vm_compute; reflexivity.
  - vm_compute. split; [discriminate | reflexivity].
Defined.

(** X15. SetCell events on two different cells of a valid Field commute:
    either order gives the same Field. *)
Theorem setCell_commute f i v j w :
  valid f →
  0 <= i < Z.of_nat (length (status f)) →
  0 <= j < Z.of_nat (length (status f)) →
  i ≠ j →
  run f [SetCell i v; SetCell j w] = run f [SetCell j w; SetCell i v]
  ∧ is_Some (run f [SetCell i v; SetCell j w]).
Proof.
  intros Hvalid Hi Hj Hne.
  destruct (two_edits_valid f i v j w Hvalid Hi Hj)
    as (f2 & Hrun & Hv2 & Hs2 & Hn2).
  destruct (two_edits_valid f j w i v Hvalid Hj Hi)
    as (g2 & Hrun' & Hvg & Hsg & Hng).
  rewrite Hrun, Hrun'. split; [|by eauto].
  f_equal. apply valid_unique; [done..| |congruence].
  rewrite Hs2, Hsg. by apply array_set_commute.
Qed.

Lemma setCell_commute_witness :
  run corner_field [SetCell 0 true; SetCell 11 false]
  = run corner_field [SetCell 11 false; SetCell 0 true]
  ∧ is_Some (run corner_field [SetCell 0 true; SetCell 11 false]).
Proof.
  apply (setCell_commute corner_field 0 true 11 false).
  - apply validb_sound. vm_compute; reflexivity.
  - vm_compute. split; [discriminate | reflexivity].
  - vm_compute. split; [discriminate | reflexivity].
  - discriminate.
Defined.

(** ** Every Field the reducer reaches *)

Lemma reducer_keeps_keys f ev f' :
  (∀ i, is_Some (neighbours f !! i)
        ↔ 0 <= i < Z.of_nat (length (status f))) →
  reducer f ev = Some f' →
  (∀ i, is_Some (neighbours f' !! i)
        ↔ 0 <= i < Z.of_nat (length (status f')))
  ∧ match ev with
    | Initialize _ _ => True
    | SetCell index _ =>
        0 <= index < Z.of_nat (length (status f))
        ∧ length (status f') = length (status f)
    | Tick => length (status f') = length (status f)
    end.
Proof.
  intros Hkeys. destruct ev as [height width|index value|].
  - intros (Hst & Hnb & _)%reducer_Initialize. split; [|done].
    intros i. rewrite Hnb, Hst, length_replicate.
    destruct (decide (0 <= i < height * width)).
    + split; [lia | by eauto].
    + split; [by intros [? ?] | lia].
  - simpl. intros (Hin & Hst & Hnb & _)%setStatusAction_Some.
    apply Hkeys in Hin.
    assert (length (status f') = length (status f)) as Hlen
      by (rewrite Hst; by apply array_set_length).
    split; [|done]. intros i. by rewrite Hnb, Hlen.
  - simpl. intros (r & Hr & ->)%tickAction_Some. simpl.
    assert (length (tick_status r) = length (status f)) as Hlen
      by (rewrite (tick_status_spec f r Hr); apply length_imap).
    split; [|done]. intros i. by rewrite Hlen.
Qed.

Lemma run_keeps_keys f events f' :
  (∀ i, is_Some (neighbours f !! i)
        ↔ 0 <= i < Z.of_nat (length (status f))) →
  run f events = Some f' →
  ∀ i, is_Some (neighbours f' !! i)
       ↔ 0 <= i < Z.of_nat (length (status f')).
Proof.
  revert f. induction events as [|ev events IH]; intros f Hkeys; simpl.
  - by intros [= <-].
  - destruct (reducer f ev) as [f1|] eqn:Hev; simpl; [|done].
    apply IH. by apply (reducer_keeps_keys f ev f1).
Qed.

Lemma emptyField_keys i :
  is_Some (neighbours emptyField !! i)
  ↔ 0 <= i < Z.of_nat (length (status emptyField)).
Proof. simpl. rewrite lookup_empty. split; [by intros [? ?] | lia]. Qed.

(** X16. In every Field the reducer reaches from the empty Field, whatever
    the events, the neighbour map has a list for exactly the indices of the
    status array. *)
Theorem reachable_map_covers_status events f :
  run emptyField events = Some f →
  ∀ i, is_Some (neighbours f !! i)
       ↔ 0 <= i < Z.of_nat (length (status f)).
Proof. apply run_keeps_keys. intros i. apply emptyField_keys. Qed.

Lemma reachable_map_covers_status_witness :
  (is_Some (neighbours long_session_field !! 15)
   ↔ 0 <= 15 < Z.of_nat (length (status long_session_field)))
  ∧ (is_Some (neighbours long_session_field !! 16)
     ↔ 0 <= 16 < Z.of_nat (length (status long_session_field))).
Proof.
  split; apply (reachable_map_covers_status long_session);
    vm_compute; reflexivity.
Defined.

(** X17. On every Field the reducer reaches, a SetCell that returns has
    addressed a cell inside the status array and has kept the length of the
    array: an index outside the grid makes the handler throw, and the
    status array never grows. *)
Theorem reachable_setCell_in_grid events f index value f' :
  run emptyField events = Some f →
  reducer f (SetCell index value) = Some f' →
  0 <= index < Z.of_nat (length (status f))
  ∧ length (status f') = length (status f).
Proof.
  intros Hrun Hset.
  pose proof (run_keeps_keys _ _ _ emptyField_keys Hrun) as Hkeys.
  by destruct (reducer_keeps_keys f (SetCell index value) f' Hkeys Hset)
    as [_ ?].
Qed.

Lemma reachable_setCell_in_grid_witness :
  0 <= 3 < Z.of_nat (length (status long_session_field))
  ∧ length (status (default emptyField
                      (reducer long_session_field (SetCell 3 false))))
    = length (status long_session_field).
Proof.
  apply (reachable_setCell_in_grid long_session long_session_field 3 false);
    vm_compute; reflexivity.
Defined.

Lemma reducer_keeps_disjoint f ev f' :
  aliveCells f ## deadCellsWithAliveNeighbours f →
  reducer f ev = Some f' →
  aliveCells f' ## deadCellsWithAliveNeighbours f'.
Proof.
  intros Hdis. destruct ev as [height width|index value|].
  - intros (_ & _ & -> & ->)%reducer_Initialize. done.
  - simpl. unfold setStatusAction.
    destruct (neighbours f !! index) as [ns|]; [|by destruct value].
    rewrite elem_of_disjoint in Hdis. destruct value; simpl.
    + intros [= <-]. simpl. apply elem_of_disjoint. intros x.
      rewrite !elem_of_union, elem_of_difference, elem_of_singleton,
        elem_of_list_to_set, list_elem_of_filter, not_elem_of_union,
        not_elem_of_singleton.
      specialize (Hdis x). intuition congruence.
    + destruct (mapM _ ns) as [lonely|]; simpl; [|done].
      intros [= <-]. simpl. apply elem_of_disjoint. intros x.
      rewrite !elem_of_difference, elem_of_singleton.
      specialize (Hdis x).
      destruct (some_alive _ ns);
        rewrite ?elem_of_union, ?elem_of_singleton; intuition congruence.
  - simpl. intros (r & Hr & ->)%tickAction_Some. simpl.
    apply elem_of_disjoint. intros n Hn.
    by intros [Hnot _]%(tick_frontier_spec f r Hr).
Qed.

(** X18. In every Field the reducer reaches from the empty Field, whatever
    the events, no cell is in [aliveCells] and in the frontier at once. *)
Theorem reachable_sets_disjoint events f :
  run emptyField events = Some f →
  aliveCells f ## deadCellsWithAliveNeighbours f.
Proof.
  assert (aliveCells emptyField ## deadCellsWithAliveNeighbours emptyField)
    as Hempty by (apply elem_of_disjoint; by intros x ?%not_elem_of_empty).
  revert Hempty. generalize emptyField. revert f.
  induction events as [|ev events IH]; intros f f0 Hdis; simpl.
  - by intros [= <-].
  - destruct (reducer f0 ev) as [f1|] eqn:Hev; simpl; [|done].
    apply IH. by apply (reducer_keeps_disjoint f0 ev f1).
Qed.

Lemma reachable_sets_disjoint_witness :
  aliveCells long_session_field
  ## deadCellsWithAliveNeighbours long_session_field.
Proof.
  apply (reachable_sets_disjoint long_session). vm_compute; reflexivity.
Defined.

(** X19. A session on one grid: after an Initialize with at least one row
    and one column and an array-length product, any sequence of Ticks and
    of SetCell events on cells of the grid is folded without a throw, and
    the Field it ends in satisfies both invariants and has the status
    length of the grid. *)
Theorem session_keeps_invariants height width events :
  1 <= height → 1 <= width → height * width < 2 ^ 32 →
  Forall (on_grid height width) events →
  ∃ f, run emptyField (Initialize height width :: events) = Some f
       ∧ alive_inv f ∧ frontier_inv f
       ∧ length (status f) = Z.to_nat (height * width).
Proof.
  intros Hh Hw Hmax Hevs.
  destruct (reachable_valid height width events Hh Hw Hmax Hevs)
    as (f & Hrun & [_ Ha Hf] & Hlen).
  by exists f.
Qed.

Lemma session_keeps_invariants_witness :
  ∃ f, run emptyField
         (Initialize 5 5 :: [SetCell 7 true; Tick; SetCell 24 true; Tick])
       = Some f
       ∧ alive_inv f ∧ frontier_inv f
       ∧ length (status f) = Z.to_nat (5 * 5).
Proof.
  apply (session_keeps_invariants 5 5); [lia | lia | lia |].
  repeat constructor; simpl; lia.
Defined.

(** ** The stream of Initialize events *)


Lemma distinctUntilChanged_from_same {A} (comparator : A → A → bool)
    key stream :
  Forall (λ x, comparator key x = true) stream →
  distinctUntilChanged_from comparator key stream = [].
Proof.
  induction 1 as [|x stream Hx _ IH]; simpl; [done|]. by rewrite Hx.
Qed.



(** X21. Settings that keep the height and the width of the first value
    (changes of the cell size, of the interval or of the colours) add no
    Initialize: the stream holds the one Initialize of the first value. *)
Theorem presentation_changes_emit_no_initialize first rest :
  Forall (λ n, settings_height n = settings_height first
               ∧ settings_width n = settings_width first) rest →
  initField_stream (first :: rest)
  = [Initialize (settings_height first) (settings_width first)].
Proof.
  intros Hsame. unfold initField_stream. simpl.
  rewrite distinctUntilChanged_from_same; [done|].
  eapply list.Forall_impl; [exact Hsame|].
  intros n [Hh Hw]. unfold same_dimensions.
  by rewrite Hh, Hw, !Z.eqb_refl.
Qed.

Lemma presentation_changes_emit_no_initialize_witness :
  initField_stream [default_settings; restyled_settings; default_settings]
  = [Initialize 20 20].
Proof.
  apply (presentation_changes_emit_no_initialize default_settings
           [restyled_settings; default_settings]).
  repeat constructor.
Defined.

(** ** The dead grid *)

(** X22. A valid Field without alive cells is a fixed point of the
    generation step: a Tick returns the Field itself. *)
Theorem tick_dead_field_fixed f :
  valid f → aliveCells f = ∅ → reducer f Tick = Some f.
Proof.
  intros Hvalid Hnone. pose proof Hvalid as [Hg Ha Hf].
  destruct (tickAction_valid f Hvalid) as (f' & Hf' & Hv' & Hlen).
  simpl. rewrite Hf'. f_equal.
  apply tickAction_Some in Hf' as (r & Hr & ->).
  assert (∀ n, array_get (status f) n = false) as Hdead.
  { intros n. destruct (array_get (status f) n) eqn:Hn; [|done].
    apply Ha in Hn. rewrite Hnone in Hn. by apply not_elem_of_empty in Hn. }
  assert (tick_aliveCells r = ∅) as Hnone'.
  { apply elem_of_equiv_empty_L. intros i.
    rewrite (tick_aliveCells_spec f r Hr), Hdead,
      alive_neighbours_all_dead by done.
    by intros (_ & _ & ?). }
  apply valid_unique; [done..| |done]. simpl.
  rewrite (tick_status_spec f r Hr), Hnone'.
  apply list_eq. intros k. rewrite list_lookup_imap.
  destruct (status f !! k) as [b|] eqn:Hk; simpl; [|done].
  rewrite bool_decide_eq_false_2 by apply not_elem_of_empty.
  specialize (Hdead (Z.of_nat k)). rewrite array_get_of_nat, Hk in Hdead.
  simpl in Hdead. by subst b.
Qed.

Lemma tick_dead_field_fixed_witness :
  reducer cleared_field Tick = Some cleared_field.
Proof.
  apply (tick_dead_field_fixed cleared_field).
  - apply validb_sound. vm_compute; reflexivity.
  - vm_compute; reflexivity.
Defined.
